(** * Potion maker: ingredients, potions, the potion graph and the allocation pass

    A shallow embedding of [potions_3.py] (and of [potions_1.py], which
    holds the same classes without the cost table, the allocation pass
    and the random ingredient generator).

    Python objects are compared and hashed by identity here: neither
    [Ingredient] nor [MagickalPotion] defines [__eq__] or [__hash__].
    Every instance therefore carries the number it was allocated under,
    and two records are the same object exactly when they are equal.

    Exceptions do not roll the store back, so a computation is a function
    from the store to an outcome and the store reached. *)

From stdpp Require Import base decidable countable gmap strings list fin_maps.
From Stdlib Require Import ZArith Lia.

Open Scope string_scope.
Open Scope list_scope.
Open Scope Z_scope.

(** ** Exceptions *)

Inductive exn : Type :=
| TypeError
| AttributeError
| KeyError
| ValueError
| IndexError
| NetworkXError
| NetworkXUnfeasible
| RuntimeError.

(** ** Ingredients *)

Inductive IngredientClass : Type := Herb | Mushroom | Root.

(** An [Ingredient] instance: its identity, its class, and the two
    attributes [__init__] stores. [quality] is whatever string the
    caller passed. *)
Record Ingredient : Type := mkIngredient {
  ing_id : nat;
  ing_class : IngredientClass;
  quantity : Z;
  quality : string
}.

Definition quality_options : list string := ["normal"; "premium"; "legendary"].

Definition quality_costs : gmap string Z :=
  <["normal" := 1]> (<["premium" := 3]> (<["legendary" := 5]> ∅)).

Definition get_name (i : Ingredient) : string :=
  match ing_class i with
  | Herb => "Herb"
  | Mushroom => "Mushroom"
  | Root => "Root"
  end.

(** [self.quantity * self.quality_costs[self.quality]]: the subscript
    raises [KeyError] on a quality outside the table. *)
Definition get_cost (i : Ingredient) : exn + Z :=
  match quality_costs !! quality i with
  | Some c => inr (quantity i * c)
  | None => inl KeyError
  end.

(** ** Potions *)

Inductive PotionClass : Type := HealingPotion | InvisibilityPotion | StrengthPotion.

(** A potion instance: its identity and its class. The attribute
    [_extra_powers] is mutable and lives in the store. *)
Record Potion : Type := mkPotion {
  potion_id : nat;
  potion_class : PotionClass
}.

(** The objects the program passes around and uses as graph nodes. *)
Inductive value : Type :=
| VNone
| VClass (c : PotionClass)
| VPotion (p : Potion)
| VIngredient (i : Ingredient).

Global Instance IngredientClass_eq_dec : EqDecision IngredientClass.
Proof. solve_decision. Defined.
Global Instance PotionClass_eq_dec : EqDecision PotionClass.
Proof. solve_decision. Defined.
Global Instance Ingredient_eq_dec : EqDecision Ingredient.
Proof. solve_decision. Defined.
Global Instance Potion_eq_dec : EqDecision Potion.
Proof. solve_decision. Defined.
Global Instance value_eq_dec : EqDecision value.
Proof. solve_decision. Defined.
Global Instance exn_eq_dec : EqDecision exn.
Proof. solve_decision. Defined.

Global Instance IngredientClass_countable : Countable IngredientClass.
Proof.
  refine (inj_countable'
    (λ c, match c with Herb => 0%nat | Mushroom => 1%nat | Root => 2%nat end)
    (λ n, match n with 0%nat => Herb | 1%nat => Mushroom | _ => Root end) _).
  by intros [].
Defined.

Global Instance PotionClass_countable : Countable PotionClass.
Proof.
  refine (inj_countable'
    (λ c, match c with
          | HealingPotion => 0%nat
          | InvisibilityPotion => 1%nat
          | StrengthPotion => 2%nat
          end)
    (λ n, match n with
          | 0%nat => HealingPotion
          | 1%nat => InvisibilityPotion
          | _ => StrengthPotion
          end) _).
  by intros [].
Defined.

Global Instance Ingredient_countable : Countable Ingredient.
Proof.
  refine (inj_countable'
    (λ i, (ing_id i, ing_class i, quantity i, quality i))
    (λ t, match t with (n, c, q, s) => mkIngredient n c q s end) _).
  by intros [].
Defined.

Global Instance Potion_countable : Countable Potion.
Proof.
  refine (inj_countable'
    (λ p, (potion_id p, potion_class p))
    (λ t, match t with (n, c) => mkPotion n c end) _).
  by intros [].
Defined.

Global Instance value_countable : Countable value.
Proof.
  refine (inj_countable'
    (λ v, match v with
          | VNone => inl ()
          | VClass c => inr (inl c)
          | VPotion p => inr (inr (inl p))
          | VIngredient i => inr (inr (inr i))
          end)
    (λ s, match s with
          | inl _ => VNone
          | inr (inl c) => VClass c
          | inr (inr (inl p)) => VPotion p
          | inr (inr (inr i)) => VIngredient i
          end) _).
  by intros [].
Defined.

(** ** The store *)

(** What [print] writes. Literal messages are kept as text; a line built
    by an f-string keeps the values it formats. *)
Inductive line : Type :=
| Text (s : string)
| IngredientLine (qty : Z) (ql name : string)
| GeneratedIngredient (qty : Z) (ql name : string)
| InventoryLine (name : string) (count : nat).

(** - [next_id]: the next fresh object identity;
    - [active_instances]: the class attribute [MagickalPotion.active_instances];
    - [extra_powers]: the attribute [_extra_powers] of each potion instance;
    - [rng]: the tape the pseudo-random source reads (an exhausted tape reads 0);
    - [layout]: one entry per set built, fixing the order in which that set
      of identity-hashed objects iterates (an exhausted list reads 0, the
      order of construction);
    - [stdout]: the lines printed so far;
    - [herbs_used]: the budget dictionary of the allocation pass, which
      [consume_ingredient] updates in place and hands back;
    - [sorcerer_inventory], [botanist_inventory]: the attribute [inventory]
      of the sorcerer and of the botanist;
    - [botanist_keys]: the keys of the botanist's [inventory] in the order
      in which they were inserted, which is the order in which a
      dictionary iterates (the sorcerer's is never iterated). *)
Record world : Type := mkWorld {
  next_id : nat;
  active_instances : list Potion;
  extra_powers : gmap nat Z;
  rng : list nat;
  layout : list nat;
  stdout : list line;
  herbs_used : gmap string Z;
  sorcerer_inventory : gmap string (list Ingredient);
  botanist_inventory : gmap string (list Ingredient);
  botanist_keys : list string
}.

Definition with_next_id (n : nat) (w : world) : world :=
  mkWorld n (active_instances w) (extra_powers w) (rng w) (layout w) (stdout w)
          (herbs_used w) (sorcerer_inventory w) (botanist_inventory w) (botanist_keys w).
Definition with_active_instances (l : list Potion) (w : world) : world :=
  mkWorld (next_id w) l (extra_powers w) (rng w) (layout w) (stdout w)
          (herbs_used w) (sorcerer_inventory w) (botanist_inventory w) (botanist_keys w).
Definition with_extra_powers (m : gmap nat Z) (w : world) : world :=
  mkWorld (next_id w) (active_instances w) m (rng w) (layout w) (stdout w)
          (herbs_used w) (sorcerer_inventory w) (botanist_inventory w) (botanist_keys w).
Definition with_rng (r : list nat) (w : world) : world :=
  mkWorld (next_id w) (active_instances w) (extra_powers w) r (layout w) (stdout w)
          (herbs_used w) (sorcerer_inventory w) (botanist_inventory w) (botanist_keys w).
Definition with_layout (r : list nat) (w : world) : world :=
  mkWorld (next_id w) (active_instances w) (extra_powers w) (rng w) r (stdout w)
          (herbs_used w) (sorcerer_inventory w) (botanist_inventory w) (botanist_keys w).
Definition with_stdout (o : list line) (w : world) : world :=
  mkWorld (next_id w) (active_instances w) (extra_powers w) (rng w) (layout w) o
          (herbs_used w) (sorcerer_inventory w) (botanist_inventory w) (botanist_keys w).
Definition with_herbs_used (h : gmap string Z) (w : world) : world :=
  mkWorld (next_id w) (active_instances w) (extra_powers w) (rng w) (layout w) (stdout w)
          h (sorcerer_inventory w) (botanist_inventory w) (botanist_keys w).
Definition with_sorcerer_inventory (m : gmap string (list Ingredient)) (w : world) : world :=
  mkWorld (next_id w) (active_instances w) (extra_powers w) (rng w) (layout w) (stdout w)
          (herbs_used w) m (botanist_inventory w) (botanist_keys w).
Definition with_botanist_inventory (m : gmap string (list Ingredient)) (w : world) : world :=
  mkWorld (next_id w) (active_instances w) (extra_powers w) (rng w) (layout w) (stdout w)
          (herbs_used w) (sorcerer_inventory w) m (botanist_keys w).
Definition with_botanist_keys (k : list string) (w : world) : world :=
  mkWorld (next_id w) (active_instances w) (extra_powers w) (rng w) (layout w) (stdout w)
          (herbs_used w) (sorcerer_inventory w) (botanist_inventory w) k.

(** ** Computations over the store *)

Definition M (A : Type) : Type := world → (exn + A) * world.

Definition ret {A : Type} (a : A) : M A := λ w, (inr a, w).

Definition raise {A : Type} (e : exn) : M A := λ w, (inl e, w).

Definition bind {A B : Type} (m : M A) (k : A → M B) : M B :=
  λ w, match m w with
       | (inl e, w') => (inl e, w')
       | (inr a, w') => k a w'
       end.

Notation "'let*' x ':=' m 'in' k" := (bind m (λ x, k))
  (at level 10, x name, m at level 100, k at level 200, only parsing).
Notation "m '>>' k" := (bind m (λ _, k))
  (at level 100, k at level 200, right associativity, only parsing).

(** A pure computation that may raise. *)
Definition lift {A : Type} (r : exn + A) : M A :=
  match r with
  | inl e => raise e
  | inr a => ret a
  end.

Definition modify (f : world → world) : M unit := λ w, (inr tt, f w).
Definition gets {A : Type} (f : world → A) : M A := λ w, (inr (f w), w).

(** [for x in l: body x] *)
Fixpoint for_each {X : Type} (l : list X) (body : X → M unit) : M unit :=
  match l with
  | [] => ret tt
  | x :: l' => body x >> for_each l' body
  end.

(** A [for] loop that updates a local variable [acc]. *)
Fixpoint for_fold {X A : Type} (l : list X) (acc : A) (body : A → X → M A) : M A :=
  match l with
  | [] => ret acc
  | x :: l' => let* acc' := body acc x in for_fold l' acc' body
  end.

(** A list built element by element, left to right. *)
Fixpoint map_M {X Y : Type} (f : X → M Y) (l : list X) : M (list Y) :=
  match l with
  | [] => ret []
  | x :: l' => let* y := f x in let* ys := map_M f l' in ret (y :: ys)
  end.

Definition print (l : line) : M unit := modify (λ w, with_stdout (stdout w ++ [l]) w).

(** A fresh object identity. *)
Definition alloc : M nat :=
  λ w, (inr (next_id w), with_next_id (S (next_id w)) w).

(** ** The pseudo-random source *)

(** The next raw draw of the tape. *)
Definition draw : M nat :=
  λ w, (inr (hd 0%nat (rng w)), with_rng (tail (rng w)) w).

(** [random.choice(seq)]: the element at a drawn index below [len(seq)];
    [IndexError] on an empty sequence. *)
Definition choice {X : Type} (seq : list X) : M X :=
  match seq with
  | [] => raise IndexError
  | _ =>
      let* r := draw in
      match seq !! (r mod length seq)%nat with
      | Some x => ret x
      | None => raise IndexError
      end
  end.

(** [random.randint(a, b)]: [a] plus a drawn offset below [b - a + 1]. *)
Definition randint (a b : Z) : M Z :=
  let* r := draw in ret (a + Z.of_nat r mod (b - a + 1)).

(** Modelled from the spec: [poissonvariate] is imported from [random],
    which has no such function; the spec's random source supplies
    [poisson(mean, lag)], a drawn integer. The tape's next entry is that
    draw. *)
Definition poissonvariate (mean lag : Z) : M Z :=
  let* r := draw in ret (Z.of_nat r).

(** ** Iteration order of a set *)

Fixpoint insert_at {A : Type} (n : nat) (x : A) (l : list A) : list A :=
  match n, l with
  | 0%nat, _ => x :: l
  | S n', y :: l' => y :: insert_at n' x l'
  | S _, [] => [x]
  end.

(** The arrangement of [l] that [seed] encodes; every arrangement of [l]
    is encoded by some seed. *)
Fixpoint permute {A : Type} (seed : nat) (l : list A) : list A :=
  match l with
  | [] => []
  | x :: l' =>
      insert_at (seed mod S (length l')) x (permute (seed / S (length l')) l')
  end.

(** A set literal of freshly built objects: it iterates in an order the
    source does not fix, read from [layout]. *)
Definition set_of {A : Type} (l : list A) : M (list A) :=
  λ w, (inr (permute (hd 0%nat (layout w)) l), with_layout (tail (layout w)) w).

(** ** The potion graph *)

(** Modelled from the spec: the graph library ([networkx]) is not part of
    the repository. A [DiGraph] keeps its nodes and, per node, its
    successors and predecessors in insertion order; the model keeps the
    nodes and the edges in insertion order, which fixes every order the
    program can observe. Adding a node or an edge already present changes
    nothing, and [None] cannot be a node. *)
Record DiGraph : Type := mkDiGraph {
  nodes : list value;
  edges : list (value * value)
}.

Definition empty_graph : DiGraph := mkDiGraph [] [].

Definition add_node (n : value) (g : DiGraph) : DiGraph :=
  if decide (n ∈ nodes g) then g else mkDiGraph (nodes g ++ [n]) (edges g).

Fixpoint add_nodes_from (ns : list value) (g : DiGraph) : exn + DiGraph :=
  match ns with
  | [] => inr g
  | n :: ns' =>
      if decide (n = VNone) then inl ValueError
      else add_nodes_from ns' (add_node n g)
  end.

Definition add_edge (u v : value) (g : DiGraph) : exn + DiGraph :=
  if decide (u = VNone ∨ v = VNone) then inl ValueError
  else
    let g' := add_node v (add_node u g) in
    inr (if decide ((u, v) ∈ edges g') then g'
         else mkDiGraph (nodes g') (edges g' ++ [(u, v)])).

Definition succ_list (g : DiGraph) (n : value) : list value :=
  (filter (λ e, e.1 = n) (edges g)).*2.

Definition pred_list (g : DiGraph) (n : value) : list value :=
  (filter (λ e, e.2 = n) (edges g)).*1.

(** [G.successors(n)] and [G.predecessors(n)] raise [NetworkXError] on a
    node that is not in the graph. *)
Definition successors (g : DiGraph) (n : value) : exn + list value :=
  if decide (n ∈ nodes g) then inr (succ_list g n) else inl NetworkXError.

Definition predecessors (g : DiGraph) (n : value) : exn + list value :=
  if decide (n ∈ nodes g) then inr (pred_list g n) else inl NetworkXError.

Definition in_degree (g : DiGraph) (n : value) : nat := length (pred_list g n).

(** *** Topological sort *)

(** Modelled from the spec: [nx.topological_sort] is a function of the
    graph library. It yields the graph's topological generations one
    after the other (Kahn's algorithm): the nodes of in-degree zero, then
    the nodes whose last unvisited predecessor was in the generation
    before, and so on; nodes left with a positive count at the end mean a
    cycle. *)
Definition indegree_map (g : DiGraph) : gmap value nat :=
  list_to_map ((λ v, (v, in_degree g v)) <$> filter (λ v, in_degree g v ≠ 0%nat) (nodes g)).

Definition zero_indegree (g : DiGraph) : list value :=
  filter (λ v, in_degree g v = 0%nat) (nodes g).

(** One child of the node being visited: its count drops by one, and at
    zero it joins the next generation. *)
Definition visit_child (st : gmap value nat * list value) (child : value)
  : exn + (gmap value nat * list value) :=
  match st.1 !! child with
  | None => inl RuntimeError
  | Some d =>
      if decide (Nat.pred d = 0%nat) then inr (delete child st.1, st.2 ++ [child])
      else inr (<[child := Nat.pred d]> st.1, st.2)
  end.

Fixpoint visit_children (st : gmap value nat * list value) (cs : list value)
  : exn + (gmap value nat * list value) :=
  match cs with
  | [] => inr st
  | c :: cs' =>
      match visit_child st c with
      | inl e => inl e
      | inr st' => visit_children st' cs'
      end
  end.

(** The nodes of one generation, visited in order. *)
Fixpoint visit_generation (g : DiGraph) (st : gmap value nat * list value)
    (this_generation : list value) : exn + (gmap value nat * list value) :=
  match this_generation with
  | [] => inr st
  | node :: rest =>
      if decide (node ∈ nodes g) then
        match visit_children st (succ_list g node) with
        | inl e => inl e
        | inr st' => visit_generation g st' rest
        end
      else inl RuntimeError
  end.

(** The [while zero_indegree] loop; [None] when [fuel] runs out. *)
Fixpoint generations (fuel : nat) (g : DiGraph) (imap : gmap value nat)
    (zero : list value) (sorted : list value) : option (exn + list value) :=
  match fuel with
  | 0%nat => None
  | S fuel' =>
      match zero with
      | [] =>
          Some (if decide (imap = ∅) then inr sorted else inl NetworkXUnfeasible)
      | _ =>
          match visit_generation g (imap, []) zero with
          | inl e => Some (inl e)
          | inr (imap', zero') => generations fuel' g imap' zero' (sorted ++ zero)
          end
      end
  end.

(** [list(nx.topological_sort(G))]. Every generation but the first
    removes its nodes from the count map, so the loop runs at most
    [size (indegree_map g) + 2] times ([generations_total] below). *)
Definition topological_sort (g : DiGraph) : exn + list value :=
  match generations (size (indegree_map g) + 2) g (indegree_map g) (zero_indegree g) [] with
  | Some r => r
  | None => inl RuntimeError
  end.

(** ** Potion classes *)

(** [MagickalPotion.__init__]: the new instance joins
    [active_instances] and starts with no extra powers. *)
Definition new_potion (c : PotionClass) : M Potion :=
  let* id := alloc in
  modify (λ w, with_active_instances (active_instances w ++ [mkPotion id c]) w) >>
  modify (λ w, with_extra_powers (<[id := 0]> (extra_powers w)) w) >>
  ret (mkPotion id c).

Definition set_extra_powers (p : Potion) (v : Z) : M unit :=
  modify (λ w, with_extra_powers (<[potion_id p := v]> (extra_powers w)) w).

(** [StrengthPotion] overrides the getter and adds 10. *)
Definition get_extra_powers (p : Potion) : M Z :=
  let* m := gets extra_powers in
  match m !! potion_id p with
  | None => raise AttributeError
  | Some v =>
      ret (match potion_class p with
           | StrengthPotion => v + 10
           | _ => v
           end)
  end.

(** [Herb(3, 'normal')] and the like: a new instance of an ingredient class. *)
Definition new_ingredient (c : IngredientClass) (qty : Z) (ql : string) : M Ingredient :=
  let* id := alloc in ret (mkIngredient id c qty ql).

Definition brew_message (c : PotionClass) : string :=
  match c with
  | HealingPotion => "Brewing a healing potion..."
  | InvisibilityPotion => "Brewing an invisibility potion..."
  | StrengthPotion => "Brewing a strength potion..."
  end.

(** The arguments each [brew] passes to [poissonvariate]. *)
Definition brew_poisson (c : PotionClass) : Z * Z :=
  match c with
  | HealingPotion => (3, 1)
  | InvisibilityPotion => (2, 1)
  | StrengthPotion => (4, 2)
  end.

(** The ingredients each [brew] builds, in the order the set literal
    lists them. *)
Definition recipe (c : PotionClass) : list (IngredientClass * Z * string) :=
  match c with
  | HealingPotion => [(Herb, 3, "normal"); (Mushroom, 2, "normal"); (Root, 1, "normal")]
  | InvisibilityPotion => [(Herb, 2, "premium"); (Mushroom, 1, "normal"); (Root, 1, "normal")]
  | StrengthPotion => [(Herb, 2, "legendary"); (Mushroom, 3, "premium"); (Root, 2, "premium")]
  end.

(** The three [brew] methods: announce, draw and store the extra powers,
    build the ingredient instances and return them as a set. *)
Definition brew (p : Potion) : M (list Ingredient) :=
  print (Text (brew_message (potion_class p))) >>
  let* extra := poissonvariate (brew_poisson (potion_class p)).1 (brew_poisson (potion_class p)).2 in
  set_extra_powers p extra >>
  let* built := map_M (λ r, new_ingredient r.1.1 r.1.2 r.2) (recipe (potion_class p)) in
  set_of built.

(** [v()]: only a class can be called; calling an instance or [None]
    raises [TypeError]. *)
Definition call (v : value) : M value :=
  match v with
  | VClass c => let* p := new_potion c in ret (VPotion p)
  | _ => raise TypeError
  end.

(** [v.brew()]: on a potion instance, the method; on a potion class,
    the plain function called without [self], a [TypeError]; other
    objects have no such attribute. *)
Definition call_brew (v : value) : M (list Ingredient) :=
  match v with
  | VPotion p => brew p
  | VClass _ => raise TypeError
  | _ => raise AttributeError
  end.

(** [v.get_cost()], [v.quality] and [v.get_name()] on an arbitrary node. *)
Definition as_ingredient (v : value) : M Ingredient :=
  match v with
  | VIngredient i => ret i
  | _ => raise AttributeError
  end.

(** [l.remove(x)]: drops the first element equal to [x]; [ValueError]
    when there is none. *)
Fixpoint list_remove (x : Ingredient) (l : list Ingredient) : exn + list Ingredient :=
  match l with
  | [] => inl ValueError
  | y :: l' =>
      if decide (y = x) then inr l'
      else match list_remove x l' with
           | inl e => inl e
           | inr r => inr (y :: r)
           end
  end.

(** ** The sorcerer *)

Module Sorcerer.

(** [__init__]: an empty inventory. The attribute [potion_count] is
    never read or written again and is left out. *)
Definition init : M unit :=
  modify (with_sorcerer_inventory ∅).

Definition generate_potion (potion_graph : DiGraph) : M value :=
  let* potion_class := choice (nodes potion_graph) in
  let* potion := call potion_class in
  let* ingredients := call_brew potion in
  print (Text "Generated potion ingredients:") >>
  for_each ingredients
    (λ ingredient, print (IngredientLine (quantity ingredient) (quality ingredient)
                                         (get_name ingredient))) >>
  ret potion.

(** The body of the outer loop of [generate_graph], run on one potion. *)
Definition brew_into (potion_graph : DiGraph) (potion : value) : M DiGraph :=
  let* ingredients := call_brew potion in
  for_fold ingredients potion_graph
    (λ potion_graph ingredient,
       lift (add_edge potion (VIngredient ingredient) potion_graph)).

Definition generate_graph (potions : list value) : M DiGraph :=
  let* potion_graph := lift (add_nodes_from potions empty_graph) in
  for_fold potions potion_graph brew_into.

(** The budget dictionary is the one object created in
    [optimize_potions]; [consume_ingredient] receives it, updates it in
    place and returns it, so it is read and written in the store.

    [consume_one] is the body of the loop of [consume_ingredient], run on
    one successor. *)
Definition consume_one (node : value) : M unit :=
  let* ingredient := as_ingredient node in
  let* herb_cost := lift (get_cost ingredient) in
  let* budget := gets herbs_used in
  match budget !! quality ingredient with
  | None => raise KeyError
  | Some b =>
      if decide (herb_cost ≤ b) then
        let* inventory := gets sorcerer_inventory in
        match inventory !! get_name ingredient with
        | None => raise KeyError
        | Some stock =>
            let* stock' := lift (list_remove ingredient stock) in
            modify (λ w, with_sorcerer_inventory
                           (<[get_name ingredient := stock']> (sorcerer_inventory w)) w) >>
            modify (λ w, with_herbs_used
                           (<[quality ingredient := b - herb_cost]> (herbs_used w)) w)
        end
      else ret tt
  end.

Definition consume_ingredient (ingredient_class : value) (potion_graph : DiGraph) : M unit :=
  let* ingredients := lift (successors potion_graph ingredient_class) in
  for_each ingredients consume_one.

Definition reset_budget : gmap string Z :=
  list_to_map ((λ q, (q, 0)) <$> quality_options).

(** The body of the loop of [optimize_potions], run on one node of the
    sorted list. *)
Definition optimize_one (potion_graph : DiGraph) (optimized_potions : list value)
    (potion_class : value) : M (list value) :=
  let* potion := call potion_class in
  let* available_ingredients := lift (predecessors potion_graph potion_class) in
  for_each available_ingredients
    (λ ingredient_class, consume_ingredient ingredient_class potion_graph) >>
  ret (optimized_potions ++ [potion]).

Definition optimize_potions (potion_graph : DiGraph) : M (list value) :=
  let* sorted_potions := lift (topological_sort potion_graph) in
  modify (with_herbs_used reset_budget) >>
  for_fold sorted_potions [] (optimize_one potion_graph).

End Sorcerer.

(** ** The botanist *)

(** [d.items()] of a dictionary whose keys were inserted in the order
    [keys]: each key with its value, in that order. *)
Definition items {A : Type} (keys : list string) (d : gmap string A) : list (string * A) :=
  omap (λ k, (λ v, (k, v)) <$> d !! k) keys.

Module Botanist.

(** [__init__]: an empty dictionary. *)
Definition init : M unit :=
  modify (λ w, with_botanist_keys [] (with_botanist_inventory ∅ w)).

(** A name that is not yet a key of the dictionary becomes its last key. *)
Definition add_ingredient (ingredient : Ingredient) : M unit :=
  modify (λ w,
    match botanist_inventory w !! get_name ingredient with
    | None =>
        with_botanist_keys (botanist_keys w ++ [get_name ingredient])
          (with_botanist_inventory
             (<[get_name ingredient := [ingredient]]> (botanist_inventory w)) w)
    | Some stock =>
        with_botanist_inventory (<[get_name ingredient := stock ++ [ingredient]]> (botanist_inventory w)) w
    end).

Definition remove_ingredient (ingredient : Ingredient) : M unit :=
  let* inventory := gets botanist_inventory in
  match inventory !! get_name ingredient with
  | None => ret tt
  | Some stock =>
      if decide (ingredient ∈ stock) then
        let* stock' := lift (list_remove ingredient stock) in
        modify (λ w, with_botanist_inventory
                       (<[get_name ingredient := stock']> (botanist_inventory w)) w)
      else ret tt
  end.

(** The method has no [return] statement: the caller receives [None]. *)
Definition generate_ingredient : M value :=
  let* ingredient_class := choice [Herb; Mushroom; Root] in
  let* qty := randint 1 5 in
  let* ql := choice quality_options in
  let* ingredient := new_ingredient ingredient_class qty ql in
  add_ingredient ingredient >>
  print (GeneratedIngredient qty ql (get_name ingredient)) >>
  ret VNone.

(** The report lists each name with the number of instances held, in
    the order in which the names became keys of the dictionary. *)
Definition show_inventory : M unit :=
  print (Text "Inventory:") >>
  let* inventory := gets botanist_inventory in
  let* keys := gets botanist_keys in
  for_each (items keys inventory)
    (λ entry, print (InventoryLine entry.1 (length entry.2))).

End Botanist.

(** ** The program *)

Definition class_name (c : PotionClass) : string :=
  match c with
  | HealingPotion => "HealingPotion"
  | InvisibilityPotion => "InvisibilityPotion"
  | StrengthPotion => "StrengthPotion"
  end.

Definition value_class_name (v : value) : string :=
  match v with
  | VNone => "NoneType"
  | VClass _ => "ABCMeta"
  | VPotion p => class_name (potion_class p)
  | VIngredient i => get_name i
  end.

(** The statements at the end of [potions_3.py], in order; drawing the
    graph on screen is left out. *)
Definition script : M unit :=
  let* potion1 := new_potion HealingPotion in
  let* potion2 := new_potion InvisibilityPotion in
  let* potion3 := new_potion StrengthPotion in
  Sorcerer.init >>
  let* potion_graph :=
    Sorcerer.generate_graph [VClass HealingPotion; VClass InvisibilityPotion; VClass StrengthPotion] in
  let* generated_potion := Sorcerer.generate_potion potion_graph in
  Botanist.init >>
  for_each (seq 0 10) (λ _, Botanist.generate_ingredient >> ret tt) >>
  Botanist.show_inventory >>
  let* optimized_potions := Sorcerer.optimize_potions potion_graph in
  print (Text "Optimized potion creation:") >>
  for_each optimized_potions (λ potion, print (Text ("- " ++ value_class_name potion))).

(** Every method of the two classes, and the constructors of the potion
    and ingredient classes, as one step of a program. *)
Inductive operation : Type :=
| OpNewPotion (c : PotionClass)
| OpNewIngredient (c : IngredientClass) (qty : Z) (ql : string)
| OpBrew (p : Potion)
| OpSorcererInit
| OpGeneratePotion (g : DiGraph)
| OpGenerateGraph (potions : list value)
| OpOptimizePotions (g : DiGraph)
| OpConsumeIngredient (ingredient_class : value) (g : DiGraph)
| OpBotanistInit
| OpAddIngredient (i : Ingredient)
| OpRemoveIngredient (i : Ingredient)
| OpGenerateIngredient
| OpShowInventory.

(** The store an operation leaves, whether it returned or raised. *)
Definition run (op : operation) (w : world) : world :=
  match op with
  | OpNewPotion c => (new_potion c w).2
  | OpNewIngredient c qty ql => (new_ingredient c qty ql w).2
  | OpBrew p => (brew p w).2
  | OpSorcererInit => (Sorcerer.init w).2
  | OpGeneratePotion g => (Sorcerer.generate_potion g w).2
  | OpGenerateGraph potions => (Sorcerer.generate_graph potions w).2
  | OpOptimizePotions g => (Sorcerer.optimize_potions g w).2
  | OpConsumeIngredient v g => (Sorcerer.consume_ingredient v g w).2
  | OpBotanistInit => (Botanist.init w).2
  | OpAddIngredient i => (Botanist.add_ingredient i w).2
  | OpRemoveIngredient i => (Botanist.remove_ingredient i w).2
  | OpGenerateIngredient => (Botanist.generate_ingredient w).2
  | OpShowInventory => (Botanist.show_inventory w).2
  end.

Definition run_all (ops : list operation) (w : world) : world :=
  foldl (λ w op, run op w) w ops.

(** The store before the program starts, with a given random tape and
    set layout. *)
Definition initial (tape slots : list nat) : world :=
  mkWorld 0 [] ∅ tape slots [] ∅ ∅ ∅ [].

(** ** Vocabulary of the statements *)

(** The requirement an ingredient instance stands for. *)
Definition triple (i : Ingredient) : IngredientClass * Z * string :=
  (ing_class i, quantity i, quality i).

(** The edges from each potion to the ingredients one brew of it built. *)
Definition requirement_edges (ps : list Potion) (reqs : list (list Ingredient))
  : list (value * value) :=
  concat (zip_with (λ p l, (λ i, (VPotion p, VIngredient i)) <$> l) ps reqs).

Definition is_ingredient (v : value) : bool :=
  match v with
  | VIngredient _ => true
  | _ => false
  end.

Definition node_triple (v : value) : option (IngredientClass * Z * string) :=
  match v with
  | VIngredient i => Some (triple i)
  | _ => None
  end.

(** The requirement nodes of a graph, and the distinct requirements
    they stand for. *)
Definition requirement_nodes (g : DiGraph) : list value :=
  filter (λ v, is_ingredient v = true) (nodes g).

Definition distinct_requirements (g : DiGraph) : list (IngredientClass * Z * string) :=
  remove_dups (omap node_triple (nodes g)).


Definition budget_nonneg (h : gmap string Z) : Prop :=
  ∀ q b, h !! q = Some b → 0 ≤ b.

(** The stock held under a name, and the number of instances. *)
Definition stock (inv : gmap string (list Ingredient)) (name : string) : list Ingredient :=
  default [] (inv !! name).

Definition count (inv : gmap string (list Ingredient)) (name : string) : nat :=
  length (stock inv name).

(** The keys of the botanist's inventory after [name] was looked for
    and, if missing, inserted. *)
Definition keys_with (name : string) (w : world) : list string :=
  match botanist_inventory w !! name with
  | None => botanist_keys w ++ [name]
  | Some _ => botanist_keys w
  end.

(** How often one instance occurs in a list. *)
Definition occurrences (i : Ingredient) (l : list Ingredient) : nat :=
  length (filter (λ j, j = i) l).

(** No entry of [inv'] is new: each name it holds was held by [inv], with
    a stock that [inv'] only thinned out. *)
Definition no_entry_added (inv inv' : gmap string (list Ingredient)) : Prop :=
  ∀ name l', inv' !! name = Some l' → ∃ l, inv !! name = Some l ∧ sublist l' l.

(** The ingredient [generate_ingredient] builds from three raw draws. *)
Definition drawn_ingredient (id r1 r2 r3 : nat) : Ingredient :=
  mkIngredient id
    (default Herb ([Herb; Mushroom; Root] !! (r1 mod 3)%nat))
    (1 + Z.of_nat r2 mod 5)
    (default "normal" (quality_options !! (r3 mod 3)%nat)).

(** The raw draws below the three ranges. *)
Definition draws : list (nat * nat * nat) :=
  r1 ← seq 0 3; r2 ← seq 0 5; r3 ← seq 0 3; [(r1, r2, r3)].

(** The [k]-th entry of the tape still to be read. *)
Definition tape (w : world) (k : nat) : nat := nth k (rng w) 0%nat.

(** A computation keeps a relation when it holds between the store the
    computation starts from and the store it leaves, returning or raising. *)
Definition keeps (R : relation world) {A : Type} (m : M A) : Prop :=
  ∀ w, R w (m w).2.


Definition same_botanist_inventory : relation world :=
  λ w w', botanist_inventory w' = botanist_inventory w.

Definition sorcerer_inventory_thinned : relation world :=
  λ w w', no_entry_added (sorcerer_inventory w) (sorcerer_inventory w').

Definition budget_kept : relation world :=
  λ w w', budget_nonneg (herbs_used w) → budget_nonneg (herbs_used w').

(** A relation that the fields of the store other than the two
    inventories and the budget do not affect. *)
Class Unaffected (R : relation world) : Prop := {
  unaffected_preorder :: PreOrder R;
  unaffected_next_id : ∀ n w, R w (with_next_id n w);
  unaffected_active_instances : ∀ l w, R w (with_active_instances l w);
  unaffected_extra_powers : ∀ m w, R w (with_extra_powers m w);
  unaffected_rng : ∀ r w, R w (with_rng r w);
  unaffected_layout : ∀ r w, R w (with_layout r w);
  unaffected_stdout : ∀ o w, R w (with_stdout o w)
}.

(** The shape of the graphs [generate_graph] builds: the nodes are the
    sources [P] followed by the targets of the edges, no node comes
    twice, and every edge starts at a source. *)
Record bipartite (P : list value) (g : DiGraph) : Prop := mkBipartite {
  bipartite_nodes : nodes g = P ++ (edges g).*2;
  bipartite_nodup : NoDup (nodes g);
  bipartite_sources : ∀ e, e ∈ edges g → e.1 ∈ P
}.

(** The successors of the nodes of [l], in order. *)
Definition children (g : DiGraph) (l : list value) : list value :=
  concat (succ_list g <$> l).

(** The instances a set literal of [brew] builds, in the order of the
    literal, the first under identity [n]. *)
Fixpoint fresh_ingredients (n : nat) (l : list (IngredientClass * Z * string))
  : list Ingredient :=
  match l with
  | [] => []
  | r :: l' => mkIngredient n r.1.1 r.1.2 r.2 :: fresh_ingredients (S n) l'
  end.

(** The three potions of the program, made in a fresh store, and the
    graph [generate_graph] builds from these instances. *)
Definition three_potions : world :=
  run_all [OpNewPotion HealingPotion; OpNewPotion InvisibilityPotion;
           OpNewPotion StrengthPotion] (initial [] []).

Definition three_potions_graph : DiGraph :=
  match (Sorcerer.generate_graph (VPotion <$> active_instances three_potions) three_potions).1 with
  | inr g => g
  | inl _ => empty_graph
  end.

(** The store [generate_graph] leaves after building that graph. *)
Definition three_potions_after : world :=
  (Sorcerer.generate_graph (VPotion <$> active_instances three_potions) three_potions).2.

(** The graph the program means to build: the three potion classes as
    nodes, each with an edge to the ingredient instances of its recipe. *)
Definition intended_graph : DiGraph :=
  let edge c k r := (VClass c, VIngredient (mkIngredient k r.1.1 r.1.2 r.2)) in
  let es :=
    imap (λ k r, edge HealingPotion k r) (recipe HealingPotion) ++
    imap (λ k r, edge InvisibilityPotion (3 + k)%nat r) (recipe InvisibilityPotion) ++
    imap (λ k r, edge StrengthPotion (6 + k)%nat r) (recipe StrengthPotion) in
  mkDiGraph ([VClass HealingPotion; VClass InvisibilityPotion; VClass StrengthPotion] ++ es.*2) es.

(** ** Further vocabulary *)

(** What [get_extra_powers] adds to the stored value. *)
Definition power_bonus (c : PotionClass) : Z :=
  match c with
  | StrengthPotion => 10
  | _ => 0
  end.

(** A relation that holds however the code changes the store outside
    the botanist's inventory: identities are only handed out upwards,
    potions are only appended to the active instances, lines are only
    appended to the output. *)
Class Grows (R : relation world) : Prop := {
  grows_preorder :: PreOrder R;
  grows_next_id : ∀ w, R w (with_next_id (S (next_id w)) w);
  grows_active_instances :
    ∀ p w, R w (with_active_instances (active_instances w ++ [p]) w);
  grows_extra_powers : ∀ m w, R w (with_extra_powers m w);
  grows_rng : ∀ r w, R w (with_rng r w);
  grows_layout : ∀ r w, R w (with_layout r w);
  grows_stdout : ∀ l w, R w (with_stdout (stdout w ++ [l]) w);
  grows_herbs_used : ∀ h w, R w (with_herbs_used h w);
  grows_sorcerer_inventory : ∀ m w, R w (with_sorcerer_inventory m w)
}.

Definition active_instances_grow : relation world :=
  λ w w', active_instances w `prefix_of` active_instances w'.

Definition next_id_grows : relation world :=
  λ w w', (next_id w ≤ next_id w')%nat.

(** The operations of the sorcerer and the constructors: those that do
    not belong to the botanist. *)
Definition is_botanist_op (op : operation) : bool :=
  match op with
  | OpBotanistInit | OpAddIngredient _ | OpRemoveIngredient _
  | OpGenerateIngredient | OpShowInventory => true
  | _ => false
  end.

Definition is_add (op : operation) : bool :=
  match op with
  | OpAddIngredient _ => true
  | _ => false
  end.

(** Every stock is held under the name of the class of its instances,
    and no name but those of the three classes is held. *)
Definition by_name (inv : gmap string (list Ingredient)) : Prop :=
  ∀ name l, inv !! name = Some l →
    name ∈ ["Herb"; "Mushroom"; "Root"] ∧ ∀ i, i ∈ l → get_name i = name.

(** No stock holds an instance twice, and every instance held was built
    before: its identity is below the next one to hand out. *)
Definition tidy (w : world) : Prop :=
  ∀ name l, botanist_inventory w !! name = Some l →
    NoDup l ∧ ∀ i, i ∈ l → (ing_id i < next_id w)%nat.

(** The lines [show_inventory] prints after the heading. *)
Definition report (w : world) : list line :=
  (λ entry, InventoryLine entry.1 (length entry.2))
    <$> items (botanist_keys w) (botanist_inventory w).

(** The key order of the botanist's inventory lists each of its keys
    once. *)
Definition dict_ok (w : world) : Prop :=
  NoDup (botanist_keys w) ∧
  ∀ name, name ∈ botanist_keys w ↔ is_Some (botanist_inventory w !! name).

Definition same_botanist_keys : relation world :=
  λ w w', botanist_keys w' = botanist_keys w.


(** No edge of the graph starts or ends at [v]. *)
Definition isolated (g : DiGraph) (v : value) : Prop :=
  pred_list g v = [] ∧ succ_list g v = [].

(** The number of instances an inventory holds, over all names. *)
Definition held (inv : gmap string (list Ingredient)) : nat :=
  length (concat (map_to_list inv).*2).

(** What one operation does to that number. *)
Definition held_after (op : operation) (w : world) : nat :=
  match op with
  | OpBotanistInit => 0
  | OpAddIngredient _ | OpGenerateIngredient => S (held (botanist_inventory w))
  | OpRemoveIngredient i =>
      if decide (i ∈ stock (botanist_inventory w) (get_name i))
      then Nat.pred (held (botanist_inventory w))
      else held (botanist_inventory w)
  | _ => held (botanist_inventory w)
  end.

(** * Reasoning about computations *)

Lemma bind_inr {A B} (m : M A) (k : A → M B) w a w1 :
  m w = (inr a, w1) → bind m k w = k a w1.
Proof. intros H. unfold bind. by rewrite H. Qed.

Lemma bind_inl {A B} (m : M A) (k : A → M B) w e w1 :
  m w = (inl e, w1) → bind m k w = (inl e, w1).
Proof. intros H. unfold bind. by rewrite H. Qed.

Lemma bind_returns {A B} (m : M A) (k : A → M B) w b w' :
  bind m k w = (inr b, w') → ∃ a w1, m w = (inr a, w1) ∧ k a w1 = (inr b, w').
Proof.
  unfold bind. destruct (m w) as [[e|a] w1]; [done|]. intros H. by exists a, w1.
Qed.

Lemma lift_returns {A} (r : exn + A) w a w' :
  lift r w = (inr a, w') → r = inr a ∧ w' = w.
Proof. destruct r; cbn; intros [= ]; by subst. Qed.

(** ** Relations kept by a computation *)

Section Keeps.
Context (R : relation world) `{!PreOrder R}.

Lemma keeps_ret {A} (a : A) : keeps R (ret a).
Proof. by intros w. Qed.

Lemma keeps_raise {A} e : keeps R (@raise A e).
Proof. by intros w. Qed.

Lemma keeps_lift {A} (r : exn + A) : keeps R (lift r).
Proof. destruct r; [apply keeps_raise | apply keeps_ret]. Qed.

Lemma keeps_gets {A} (f : world → A) : keeps R (gets f).
Proof. by intros w. Qed.

Lemma keeps_modify f : (∀ w, R w (f w)) → keeps R (modify f).
Proof. intros H w. apply H. Qed.

Lemma keeps_bind {A B} (m : M A) (k : A → M B) :
  keeps R m → (∀ a, keeps R (k a)) → keeps R (bind m k).
Proof.
  intros Hm Hk w. unfold bind. specialize (Hm w).
  destruct (m w) as [[e|a] w1]; [done|].
  etrans; [exact Hm | apply Hk].
Qed.

Lemma keeps_for_each {X} (l : list X) body :
  (∀ x, keeps R (body x)) → keeps R (for_each l body).
Proof.
  intros Hb. induction l as [|x l IH]; cbn; [apply keeps_ret|].
  apply keeps_bind; [apply Hb | intros _; exact IH].
Qed.

Lemma keeps_for_fold {X A} (l : list X) (acc : A) body :
  (∀ a x, keeps R (body a x)) → keeps R (for_fold l acc body).
Proof.
  intros Hb. revert acc. induction l as [|x l IH]; intros acc; cbn; [apply keeps_ret|].
  apply keeps_bind; [apply Hb | intros a; apply IH].
Qed.

Lemma keeps_map_M {X Y} (f : X → M Y) l :
  (∀ x, keeps R (f x)) → keeps R (map_M f l).
Proof.
  intros Hf. induction l as [|x l IH]; cbn; [apply keeps_ret|].
  apply keeps_bind; [apply Hf | intros y].
  apply keeps_bind; [exact IH | intros ys; apply keeps_ret].
Qed.
End Keeps.

(** ** Changes of the store a computation ignores *)

Section Ignores.
Context (f : world → world).









End Ignores.
(** * Ingredient cost *)

Lemma quality_costs_normal : quality_costs !! "normal" = Some 1.
Proof. reflexivity. Qed.

Lemma quality_costs_premium : quality_costs !! "premium" = Some 3.
Proof. reflexivity. Qed.

Lemma quality_costs_legendary : quality_costs !! "legendary" = Some 5.
Proof. reflexivity. Qed.

Lemma quality_costs_other q : q ∉ quality_options → quality_costs !! q = None.
Proof.
  intros Hq. unfold quality_costs, quality_options in *.
  rewrite !lookup_insert_ne, lookup_empty; [done|..]; intros <-; set_solver.
Qed.

Lemma get_cost_outside_table i : quality i ∉ quality_options → get_cost i = inl KeyError.
Proof. intros H. unfold get_cost. by rewrite quality_costs_other. Qed.

Lemma get_cost_scales id id' c c' k n q u :
  quality_costs !! q = Some u →
  get_cost (mkIngredient id c (k * n) q) = inr (k * (n * u)) ∧
  get_cost (mkIngredient id' c' n q) = inr (n * u).
Proof. intros H. unfold get_cost; cbn. rewrite H. split; f_equal; lia. Qed.

(** C10. [get_cost] returns the quantity times the unit cost of the
    quality, the unit costs being 1 for normal, 3 for premium and 5 for
    legendary. The cost is multiplicative in the quantity: [k] times the
    quantity costs [k] times as much, and a premium ingredient of
    quantity 2 costs 6, twice the 3 of a premium ingredient of
    quantity 1. *)
Theorem get_cost_is_quantity_times_unit_cost (id : nat) (c : IngredientClass) (n k : Z) :
  get_cost (mkIngredient id c n "normal") = inr (n * 1) ∧
  get_cost (mkIngredient id c n "premium") = inr (n * 3) ∧
  get_cost (mkIngredient id c n "legendary") = inr (n * 5) ∧
  get_cost (mkIngredient id c (k * n) "normal") = inr (k * (n * 1)) ∧
  get_cost (mkIngredient id c (k * n) "premium") = inr (k * (n * 3)) ∧
  get_cost (mkIngredient id c (k * n) "legendary") = inr (k * (n * 5)) ∧
  get_cost (mkIngredient id c 1 "premium") = inr 3 ∧
  get_cost (mkIngredient id c 2 "premium") = inr (2 * 3) ∧
  get_cost (mkIngredient id c 2 "premium") = inr 6.
Proof.
  pose proof (get_cost_scales id id c c k n _ _ quality_costs_normal) as [Hn Hn1].
  pose proof (get_cost_scales id id c c k n _ _ quality_costs_premium) as [Hp Hp1].
  pose proof (get_cost_scales id id c c k n _ _ quality_costs_legendary) as [Hl Hl1].
  pose proof (get_cost_scales id id c c 2 1 _ _ quality_costs_premium) as [H2 H1].
  repeat split; try assumption.
Qed.

(** * Removing from a list *)

Lemma list_remove_elem x l : x ∈ l → ∃ l', list_remove x l = inr l'.
Proof.
  induction l as [|y l IH]; [by intros ?%elem_of_nil|].
  intros Hx. cbn. destruct (decide (y = x)) as [->|Hne]; [by eexists|].
  apply elem_of_cons in Hx as [->|Hx]; [done|].
  destruct (IH Hx) as [l' ->]. by eexists.
Qed.

Lemma list_remove_not_elem x l : x ∉ l → list_remove x l = inl ValueError.
Proof.
  induction l as [|y l IH]; [done|].
  intros Hx. apply not_elem_of_cons in Hx as [Hne Hx]. cbn.
  destruct (decide (y = x)); [congruence|]. by rewrite IH.
Qed.

Lemma list_remove_raises x l e : list_remove x l = inl e → e = ValueError ∧ x ∉ l.
Proof.
  destruct (decide (x ∈ l)) as [Hin|Hout].
  - destruct (list_remove_elem x l Hin) as [l' ->]. done.
  - rewrite (list_remove_not_elem x l Hout). by intros [= <-].
Qed.

Lemma list_remove_sublist x l l' : list_remove x l = inr l' → sublist l' l.
Proof.
  revert l'. induction l as [|y l IH]; intros l'; cbn; [done|].
  destruct (decide (y = x)).
  - intros [= <-]. by apply sublist_cons.
  - destruct (list_remove x l) as [e|r]; [done|]. intros [= <-].
    apply sublist_skip. by apply IH.
Qed.

Lemma list_remove_length x l l' : list_remove x l = inr l' → length l = S (length l').
Proof.
  revert l'. induction l as [|y l IH]; intros l'; cbn; [done|].
  destruct (decide (y = x)).
  - by intros [= <-].
  - destruct (list_remove x l) as [e|r]; [done|]. intros [= <-]. cbn.
    f_equal. by apply IH.
Qed.

Lemma list_remove_occurrences x l l' :
  list_remove x l = inr l' → occurrences x l = S (occurrences x l').
Proof.
  unfold occurrences. revert l'.
  induction l as [|y l IH]; intros l'; cbn [list_remove]; [done|].
  destruct (decide (y = x)) as [->|Hne].
  - intros [= <-]. by rewrite filter_cons_True.
  - destruct (list_remove x l) as [e|r]; [done|]. intros [= <-].
    rewrite !filter_cons_False by done. by apply IH.
Qed.

Lemma occurrences_zero x l : x ∉ l → occurrences x l = 0%nat.
Proof.
  unfold occurrences. induction l as [|y l IH]; [done|].
  intros [Hne Hout]%not_elem_of_cons.
  rewrite filter_cons_False by congruence. by apply IH.
Qed.

Lemma occurrences_pos x l : x ∈ l → (0 < occurrences x l)%nat.
Proof.
  intros Hin. destruct (list_remove_elem x l Hin) as [l' H].
  rewrite (list_remove_occurrences _ _ _ H). lia.
Qed.

(** * The botanist's inventory *)

(** [remove_ingredient] in one equation: the first occurrence goes, if
    there is one, and nothing happens otherwise. *)
Lemma remove_ingredient_unfold i w :
  Botanist.remove_ingredient i w =
  match list_remove i (stock (botanist_inventory w) (get_name i)) with
  | inr l' =>
      (inr tt, with_botanist_inventory (<[get_name i := l']> (botanist_inventory w)) w)
  | inl _ => (inr tt, w)
  end.
Proof.
  unfold Botanist.remove_ingredient, stock, bind, gets; cbn.
  destruct (botanist_inventory w !! get_name i) as [l|] eqn:Hl; cbn; [|done].
  destruct (decide (i ∈ l)) as [Hin|Hout].
  - destruct (list_remove_elem i l Hin) as [l' ->]. done.
  - by rewrite (list_remove_not_elem i l Hout).
Qed.

Lemma stock_insert inv name l : stock (<[name := l]> inv) name = l.
Proof. unfold stock. by rewrite lookup_insert_eq. Qed.

Lemma stock_insert_ne inv name name' l :
  name ≠ name' → stock (<[name := l]> inv) name' = stock inv name'.
Proof. intros. unfold stock. by rewrite lookup_insert_ne. Qed.

Lemma remove_ingredient_absent i w :
  i ∉ stock (botanist_inventory w) (get_name i) →
  Botanist.remove_ingredient i w = (inr tt, w).
Proof. intros H. rewrite remove_ingredient_unfold. by rewrite list_remove_not_elem. Qed.

Lemma remove_ingredient_present i w :
  i ∈ stock (botanist_inventory w) (get_name i) →
  ∃ l', list_remove i (stock (botanist_inventory w) (get_name i)) = inr l' ∧
        Botanist.remove_ingredient i w =
        (inr tt, with_botanist_inventory (<[get_name i := l']> (botanist_inventory w)) w).
Proof.
  intros H. destruct (list_remove_elem _ _ H) as [l' Hl']. exists l'. split; [done|].
  rewrite remove_ingredient_unfold. by rewrite Hl'.
Qed.

(** C8, as the code has it. [remove_ingredient] never raises. Applied to
    an instance its inventory does not hold it changes nothing; applied
    to one it holds, it drops one occurrence. Removing the same instance
    a second time changes nothing more, and leaves every count as the
    first removal left it, whenever the inventory held the instance at
    most once. *)
Theorem remove_ingredient_noop_when_absent (i : Ingredient) (w : world) :
  (Botanist.remove_ingredient i w).1 = inr tt ∧
  (i ∉ stock (botanist_inventory w) (get_name i) →
     Botanist.remove_ingredient i w = (inr tt, w)) ∧
  (i ∈ stock (botanist_inventory w) (get_name i) →
     S (count (botanist_inventory (Botanist.remove_ingredient i w).2) (get_name i))
     = count (botanist_inventory w) (get_name i)) ∧
  ((occurrences i (stock (botanist_inventory w) (get_name i)) ≤ 1)%nat →
     Botanist.remove_ingredient i (Botanist.remove_ingredient i w).2
     = (inr tt, (Botanist.remove_ingredient i w).2) ∧
     ∀ name,
       count (botanist_inventory
                (Botanist.remove_ingredient i (Botanist.remove_ingredient i w).2).2) name
       = count (botanist_inventory (Botanist.remove_ingredient i w).2) name).
Proof.
  split; [|split; [|split]].
  - rewrite remove_ingredient_unfold. by destruct (list_remove _ _).
  - apply remove_ingredient_absent.
  - intros Hin. destruct (remove_ingredient_present i w Hin) as (l' & Hl' & ->).
    cbn [snd botanist_inventory with_botanist_inventory]. unfold count. rewrite stock_insert. symmetry. by eapply list_remove_length.
  - intros Hocc.
    assert (Botanist.remove_ingredient i (Botanist.remove_ingredient i w).2
            = (inr tt, (Botanist.remove_ingredient i w).2)) as Htwice.
    { destruct (decide (i ∈ stock (botanist_inventory w) (get_name i))) as [Hin|Hout].
      - destruct (remove_ingredient_present i w Hin) as (l' & Hl' & ->). cbn [snd].
        apply remove_ingredient_absent.
        cbn [botanist_inventory with_botanist_inventory]. rewrite stock_insert.
        intros Hin'. apply occurrences_pos in Hin'.
        apply list_remove_occurrences in Hl'. lia.
      - rewrite (remove_ingredient_absent i w Hout). cbn [snd].
        by apply remove_ingredient_absent. }
    split; [exact Htwice|]. intros name. by rewrite Htwice.
Qed.

(** C8 fails as stated: an instance added twice is held twice, and each
    removal drops one occurrence, so the second removal changes the
    count again. *)
Lemma remove_ingredient_twice_not_idempotent :
  let h := mkIngredient 0 Herb 1 "normal" in
  let w := run_all [OpNewIngredient Herb 1 "normal"; OpAddIngredient h; OpAddIngredient h]
                   (initial [] []) in
  count (botanist_inventory w) "Herb" = 2%nat ∧
  count (botanist_inventory (run (OpRemoveIngredient h) w)) "Herb" = 1%nat ∧
  count (botanist_inventory (run (OpRemoveIngredient h) (run (OpRemoveIngredient h) w))) "Herb"
  = 0%nat.
Proof. vm_compute. done. Qed.

(** An instance held once: the second removal finds nothing. *)
Example remove_ingredient_twice_held_once :
  let h := mkIngredient 0 Herb 1 "normal" in
  let w := run_all [OpNewIngredient Herb 1 "normal"; OpAddIngredient h] (initial [] []) in
  count (botanist_inventory w) "Herb" = 1%nat ∧
  count (botanist_inventory (run (OpRemoveIngredient h) w)) "Herb" = 0%nat ∧
  run (OpRemoveIngredient h) (run (OpRemoveIngredient h) w) = run (OpRemoveIngredient h) w.
Proof. vm_compute. done. Qed.

(** * The random source *)

Lemma tape_0 w : tape w 0 = hd 0%nat (rng w).
Proof. unfold tape. by destruct (rng w). Qed.

Lemma tape_S w k : tape w (S k) = tape (with_rng (tail (rng w)) w) k.
Proof. unfold tape. cbn. destruct (rng w); [by destruct k|done]. Qed.

(** [choice] on a non-empty sequence returns the element at the drawn
    index, reduced below the length, and consumes one draw. *)
Lemma choice_nonempty {X} (l : list X) (d : X) w :
  l ≠ [] →
  choice l w
  = (inr (default d (l !! (tape w 0 mod length l)%nat)), with_rng (tail (rng w)) w).
Proof.
  intros Hne. rewrite tape_0.
  assert (is_Some (l !! (hd 0%nat (rng w) mod length l)%nat)) as [x Hx].
  { apply lookup_lt_is_Some_2, Nat.mod_upper_bound. by destruct l. }
  destruct l as [|y l]; [done|].
  unfold choice, bind, draw. by rewrite Hx.
Qed.

Lemma choice_empty {X} w : choice (@nil X) w = (inl IndexError, w).
Proof. done. Qed.

Lemma filter_none {A} (P : A → Prop) `{∀ x, Decision (P x)} (l : list A) :
  (∀ x, x ∈ l → ¬ P x) → filter P l = [].
Proof.
  induction l as [|y l IH]; [done|]. intros Hl.
  rewrite filter_cons_False by (apply Hl; left).
  apply IH. intros x Hx. apply Hl. by right.
Qed.

Lemma filter_seq_single (P : nat → Prop) `{∀ r, Decision (P r)} (n k : nat) :
  (k < n)%nat → (∀ r, (r < n)%nat → P r ↔ r = k) →
  filter P (seq 0 n) = [k].
Proof.
  intros Hk HP.
  replace n with (k + (1 + (n - S k)))%nat by lia.
  rewrite !seq_app, !filter_app. cbn [seq].
  rewrite filter_cons_True by (apply HP; [lia|done]).
  rewrite (filter_none _ (seq 0 k)), (filter_none _ (seq _ _)); [done|..].
  - intros r Hr%elem_of_seq Hp. apply HP in Hp; lia.
  - intros r Hr%elem_of_seq Hp. apply HP in Hp; lia.
Qed.

(** Every element of a sequence without repetition is the choice of
    exactly one draw below its length: under uniform draws, [choice] is
    uniform over the sequence. *)
Lemma choice_uniform {X} `{EqDecision X} (l : list X) (x : X) :
  NoDup l → x ∈ l →
  length (filter (λ r, l !! (r mod length l)%nat = Some x) (seq 0 (length l))) = 1%nat.
Proof.
  intros Hnd Hin. apply list_elem_of_lookup in Hin as [k Hk].
  assert (k < length l)%nat as Hlt by (by eapply lookup_lt_Some).
  rewrite (filter_seq_single _ (length l) k); [done|done|].
  intros r Hr. rewrite Nat.mod_small by done. split.
  - intros Hx. by eapply NoDup_lookup.
  - by intros ->.
Qed.

(** * Generating a random ingredient *)

Lemma add_ingredient_unfold i w :
  Botanist.add_ingredient i w
  = (inr tt,
     with_botanist_keys (keys_with (get_name i) w)
       (with_botanist_inventory
          (<[get_name i := stock (botanist_inventory w) (get_name i) ++ [i]]>
             (botanist_inventory w))
          w)).
Proof.
  unfold Botanist.add_ingredient, modify, stock, keys_with.
  by destruct (botanist_inventory w !! get_name i).
Qed.

Lemma generate_ingredient_unfold w :
  let i := drawn_ingredient (next_id w) (tape w 0) (tape w 1) (tape w 2) in
  Botanist.generate_ingredient w
  = (inr VNone,
     with_stdout (stdout w ++ [GeneratedIngredient (quantity i) (quality i) (get_name i)])
       (with_botanist_keys (keys_with (get_name i) w)
          (with_botanist_inventory
             (<[get_name i := stock (botanist_inventory w) (get_name i) ++ [i]]>
                (botanist_inventory w))
             (with_next_id (S (next_id w))
                (with_rng (tail (tail (tail (rng w)))) w))))).
Proof.
  intros i. unfold Botanist.generate_ingredient.
  erewrite bind_inr by (by apply (choice_nonempty _ Herb)).
  erewrite bind_inr by reflexivity.
  erewrite bind_inr by (by apply (choice_nonempty _ "normal")).
  erewrite bind_inr by reflexivity.
  erewrite bind_inr by apply add_ingredient_unfold.
  erewrite bind_inr by reflexivity.
  subst i. rewrite !tape_S, !tape_0. unfold drawn_ingredient.

  cbn. done.
Qed.

Lemma drawn_ingredient_in_range id r1 r2 r3 :
  ing_class (drawn_ingredient id r1 r2 r3) ∈ [Herb; Mushroom; Root] ∧
  1 ≤ quantity (drawn_ingredient id r1 r2 r3) ≤ 5 ∧
  quality (drawn_ingredient id r1 r2 r3) ∈ quality_options.
Proof.
  unfold drawn_ingredient; cbn [ing_class quantity quality]. split; [|split].
  - destruct (default Herb _); set_solver.
  - pose proof (Z.mod_pos_bound (Z.of_nat r2) 5). lia.
  - pose proof (Nat.mod_upper_bound r3 3) as Hlt.
    destruct (r3 mod 3)%nat as [|[|[|n]]]; cbn; [set_solver..|lia].
Qed.

(** Each kind, quantity from 1 to 5 and quality comes from exactly one
    of the 45 triples of raw draws below 3, 5 and 3. *)
Lemma drawn_ingredient_uniform id c q ql :
  1 ≤ q ≤ 5 → ql ∈ quality_options →
  length (filter (λ r, triple (drawn_ingredient id r.1.1 r.1.2 r.2) = (c, q, ql)) draws) = 1%nat.
Proof.
  intros Hq Hql.
  assert (q = 1 ∨ q = 2 ∨ q = 3 ∨ q = 4 ∨ q = 5) as Hq' by lia.
  unfold quality_options in Hql. rewrite !elem_of_cons, elem_of_nil in Hql.
  destruct c; destruct Hq' as [->|[->|[->|[->| ->]]]];
    destruct Hql as [->|[->|[->|[]]]]; by vm_compute.
Qed.

(** C7, as the code has it. [generate_ingredient] builds a new
    ingredient from three draws: the kind at a drawn index among Herb,
    Mushroom and Root, an integer quantity from 1 to 5, and the quality
    at a drawn index among normal, premium and legendary, each outcome
    coming from exactly one triple of draws below the ranges. It appends
    the ingredient to the botanist's stock under the ingredient's name.
    It returns [None]: the ingredient is printed, not handed to the
    caller. *)
Theorem generate_ingredient_adds_drawn_ingredient (w : world) :
  let i := drawn_ingredient (next_id w) (tape w 0) (tape w 1) (tape w 2) in
  (Botanist.generate_ingredient w).1 = inr VNone ∧
  botanist_inventory (Botanist.generate_ingredient w).2
  = <[get_name i := stock (botanist_inventory w) (get_name i) ++ [i]]> (botanist_inventory w) ∧
  stdout (Botanist.generate_ingredient w).2
  = stdout w ++ [GeneratedIngredient (quantity i) (quality i) (get_name i)] ∧
  ing_class i ∈ [Herb; Mushroom; Root] ∧
  1 ≤ quantity i ≤ 5 ∧
  quality i ∈ quality_options ∧
  ∀ id c q ql,
    1 ≤ q ≤ 5 → ql ∈ quality_options →
    length (filter (λ r, triple (drawn_ingredient id r.1.1 r.1.2 r.2) = (c, q, ql)) draws)
    = 1%nat.
Proof.
  intros i. rewrite generate_ingredient_unfold. fold i.
  destruct (drawn_ingredient_in_range (next_id w) (tape w 0) (tape w 1) (tape w 2))
    as (Hc & Hq & Hql).
  repeat split; try done.
  - apply Hq.
  - apply Hq.
  - intros id c q ql. apply drawn_ingredient_uniform.
Qed.

(** C7 fails as stated: the caller receives [None], not the ingredient
    that went into the inventory. *)
Lemma generate_ingredient_returns_none :
  let w := initial [1; 3; 2]%nat [] in
  let i := mkIngredient 0 Mushroom 4 "legendary" in
  stock (botanist_inventory (Botanist.generate_ingredient w).2) "Mushroom" = [i] ∧
  (Botanist.generate_ingredient w).1 = inr VNone ∧
  (Botanist.generate_ingredient w).1 ≠ inr (VIngredient i).
Proof. vm_compute. split; [done|]. split; [done|]. intros [=]. Qed.

(** * What the operations leave alone *)

Lemma no_entry_added_refl inv : no_entry_added inv inv.
Proof. intros name l Hl. by exists l. Qed.

Lemma no_entry_added_trans inv1 inv2 inv3 :
  no_entry_added inv1 inv2 → no_entry_added inv2 inv3 → no_entry_added inv1 inv3.
Proof.
  intros H12 H23 name l3 Hl3.
  destruct (H23 _ _ Hl3) as (l2 & Hl2 & Hsub23).
  destruct (H12 _ _ Hl2) as (l1 & Hl1 & Hsub12).
  exists l1. split; [done|]. by etrans.
Qed.




Global Instance same_botanist_inventory_preorder : PreOrder same_botanist_inventory.
Proof.
  split; [by intros w|]. intros w1 w2 w3. unfold same_botanist_inventory. congruence.
Qed.

Global Instance sorcerer_inventory_thinned_preorder : PreOrder sorcerer_inventory_thinned.
Proof.
  split.
  - intros w. apply no_entry_added_refl.
  - intros w1 w2 w3. apply no_entry_added_trans.
Qed.

Global Instance budget_kept_preorder : PreOrder budget_kept.
Proof.
  split.
  - intros w H. exact H.
  - intros w1 w2 w3 H12 H23 H. apply H23, H12, H.
Qed.

(** One step through the structure of a computation. *)
Ltac keeps_step :=
  lazymatch goal with
  | |- keeps ?R (ret _) => apply (keeps_ret R)
  | |- keeps ?R (raise _) => apply (keeps_raise R)
  | |- keeps ?R (lift _) => apply (keeps_lift R)
  | |- keeps ?R (gets _) => apply (keeps_gets R)
  | |- keeps ?R (bind _ _) => apply (keeps_bind R); [|intros ?]
  | |- keeps ?R (for_each _ _) => apply (keeps_for_each R); intros ?
  | |- keeps ?R (for_fold _ _ _) => apply (keeps_for_fold R); intros ? ?
  | |- keeps ?R (map_M _ _) => apply (keeps_map_M R); intros ?
  | |- keeps _ (match ?x with _ => _ end) => destruct x
  end.


Global Instance same_botanist_inventory_unaffected : Unaffected same_botanist_inventory.
Proof. split; [apply _|..]; intros; unfold same_botanist_inventory; reflexivity. Qed.

Global Instance sorcerer_inventory_thinned_unaffected : Unaffected sorcerer_inventory_thinned.
Proof. split; [apply _|..]; intros; apply no_entry_added_refl. Qed.

Global Instance budget_kept_unaffected : Unaffected budget_kept.
Proof. split; [apply _|..]; intros; intros H; exact H. Qed.

(** The computations that touch neither inventory nor the budget keep
    every such relation. *)
Section Plain.
Context (R : relation world) `{!Unaffected R}.

Local Ltac leaf :=
  intros ?; unfold alloc, draw, set_of, modify; cbn;
  first [ apply unaffected_next_id | apply unaffected_active_instances
        | apply unaffected_extra_powers | apply unaffected_rng
        | apply unaffected_layout | apply unaffected_stdout ].

Lemma keeps_alloc : keeps R alloc.
Proof. leaf. Qed.






Lemma keeps_new_potion c : keeps R (new_potion c).
Proof. unfold new_potion. repeat keeps_step; try apply keeps_alloc; leaf. Qed.



Lemma keeps_call v : keeps R (call v).
Proof. unfold call. repeat keeps_step. apply keeps_new_potion. Qed.




(** The allocation pass keeps the relation as soon as one step of
    [consume_ingredient] and the reset of the budget do. *)
Lemma keeps_consume_ingredient v g :
  (∀ node, keeps R (Sorcerer.consume_one node)) →
  keeps R (Sorcerer.consume_ingredient v g).
Proof. intros H. unfold Sorcerer.consume_ingredient. repeat keeps_step. apply H. Qed.

Lemma keeps_optimize_potions g :
  (∀ node, keeps R (Sorcerer.consume_one node)) →
  (∀ w, R w (with_herbs_used Sorcerer.reset_budget w)) →
  keeps R (Sorcerer.optimize_potions g).
Proof.
  intros Hone Hreset. unfold Sorcerer.optimize_potions, Sorcerer.optimize_one. repeat keeps_step.
  - by apply (keeps_modify R).
  - apply keeps_call.
  - by apply keeps_consume_ingredient.
Qed.

(** So do the botanist's methods, as soon as a change of the
    botanist's inventory does. *)
Context (R_botanist : ∀ m k w, R w (with_botanist_keys k (with_botanist_inventory m w))).





End Plain.

(** * One step of the allocation pass *)

(** [consume_one] on an ingredient instance, in one equation. *)
Lemma consume_one_ingredient i w :
  Sorcerer.consume_one (VIngredient i) w =
  match get_cost i with
  | inl e => (inl e, w)
  | inr c =>
      match herbs_used w !! quality i with
      | None => (inl KeyError, w)
      | Some b =>
          if decide (c ≤ b) then
            match sorcerer_inventory w !! get_name i with
            | None => (inl KeyError, w)
            | Some l =>
                match list_remove i l with
                | inl e => (inl e, w)
                | inr l' =>
                    (inr tt,
                     with_herbs_used (<[quality i := b - c]> (herbs_used w))
                       (with_sorcerer_inventory
                          (<[get_name i := l']> (sorcerer_inventory w)) w))
                end
            end
          else (inr tt, w)
      end
  end.
Proof.
  unfold Sorcerer.consume_one, bind. cbn [as_ingredient ret].
  destruct (get_cost i) as [e|c]; [done|]. cbn [lift ret gets].
  destruct (herbs_used w !! quality i) as [b|]; [|done].
  destruct (decide (c ≤ b)) as [Hle|Hgt]; [|done]. cbn [gets].
  destruct (sorcerer_inventory w !! get_name i) as [l|]; [|done].
  by destruct (list_remove i l).
Qed.

Lemma consume_one_other node w :
  (∀ i, node ≠ VIngredient i) → Sorcerer.consume_one node w = (inl AttributeError, w).
Proof. intros H. destruct node as [|k|p|i]; try done. by destruct (H i). Qed.

(** [consume_one] either leaves the store as it found it, or it found an
    ingredient whose cost the budget of its quality covers, and took
    both the instance out of the sorcerer's stock and the cost out of
    that budget. *)
Lemma consume_one_cases node w :
  (Sorcerer.consume_one node w).2 = w ∨
  ∃ i c b l l',
    node = VIngredient i ∧ get_cost i = inr c ∧
    herbs_used w !! quality i = Some b ∧ c ≤ b ∧
    sorcerer_inventory w !! get_name i = Some l ∧ list_remove i l = inr l' ∧
    Sorcerer.consume_one node w
    = (inr tt,
       with_herbs_used (<[quality i := b - c]> (herbs_used w))
         (with_sorcerer_inventory (<[get_name i := l']> (sorcerer_inventory w)) w)).
Proof.
  destruct node as [|k|p|i]; try (by left).
  rewrite consume_one_ingredient.
  destruct (get_cost i) as [e|c] eqn:Hc; [by left|].
  destruct (herbs_used w !! quality i) as [b|] eqn:Hb; [|by left].
  destruct (decide (c ≤ b)) as [Hle|Hgt]; [|by left].
  destruct (sorcerer_inventory w !! get_name i) as [l|] eqn:Hl; [|by left].
  destruct (list_remove i l) as [e|l'] eqn:Hl'; [by left|].
  right. by exists i, c, b, l, l'.
Qed.



Lemma budget_nonneg_insert h q b : budget_nonneg h → 0 ≤ b → budget_nonneg (<[q := b]> h).
Proof.
  intros Hh Hb q' b'. destruct (decide (q = q')) as [<-|Hne].
  - rewrite lookup_insert_eq. by intros [= <-].
  - rewrite lookup_insert_ne by done. apply Hh.
Qed.

Lemma consume_one_keeps_budget node : keeps budget_kept (Sorcerer.consume_one node).
Proof.
  intros w. destruct (consume_one_cases node w) as [->|(i&c&b&l&l'&_&_&_&Hle&_&_&->)].
  - by intros H.
  - intros H. cbn. apply budget_nonneg_insert; [done|lia].
Qed.

Lemma reset_budget_zero q : Sorcerer.reset_budget !! q = Some 0 ∨ Sorcerer.reset_budget !! q = None.
Proof.
  unfold Sorcerer.reset_budget, quality_options. cbn.
  destruct (decide (q = "normal")) as [->|?]; [by left|].
  destruct (decide (q = "premium")) as [->|?]; [by left|].
  destruct (decide (q = "legendary")) as [->|?]; [by left|].
  right. by rewrite !lookup_insert_ne, lookup_empty.
Qed.

Lemma reset_budget_nonneg : budget_nonneg Sorcerer.reset_budget.
Proof. intros q b Hq. destruct (reset_budget_zero q) as [H|H]; rewrite H in Hq; by simplify_eq. Qed.

(** What one step does to the budget: nothing when the cost exceeds what
    is left, and otherwise only the budget of the ingredient's quality
    changes, by the cost. *)
Lemma consume_one_deducts i w b c :
  herbs_used w !! quality i = Some b → get_cost i = inr c →
  (b < c → Sorcerer.consume_one (VIngredient i) w = (inr tt, w)) ∧
  ∀ q, herbs_used (Sorcerer.consume_one (VIngredient i) w).2 !! q = herbs_used w !! q ∨
       (q = quality i ∧ c ≤ b ∧
        herbs_used (Sorcerer.consume_one (VIngredient i) w).2 !! q = Some (b - c)).
Proof.
  intros Hb Hc. split.
  - intros Hlt. rewrite consume_one_ingredient, Hc, Hb.
    destruct (decide (c ≤ b)); [lia|done].
  - intros q.
    destruct (consume_one_cases (VIngredient i) w)
      as [->|(i'&c'&b'&l&l'&[= <-]&Hc'&Hb'&Hle&_&_&->)]; [by left|].
    rewrite Hc in Hc'. simplify_eq. cbn. destruct (decide (quality i = q)) as [<-|Hne].
    + right. by rewrite lookup_insert_eq.
    + left. by rewrite lookup_insert_ne.
Qed.

(** * The budget of the allocation pass *)

(** C9. The budget the pass starts from is not negative; one step of
    [consume_ingredient] takes a cost out of a budget only when the
    budget covers it, and changes no other budget; so neither
    [consume_ingredient] nor the whole pass ever leaves a negative
    budget, whether the pass returns or raises, and no budget is
    negative after any number of nodes the loop of the pass has gone
    through. *)
Theorem budget_never_negative (g : DiGraph) (w : world) :
  budget_nonneg Sorcerer.reset_budget ∧
  (∀ i w1 b c,
     herbs_used w1 !! quality i = Some b → get_cost i = inr c →
     (b < c → Sorcerer.consume_one (VIngredient i) w1 = (inr tt, w1)) ∧
     ∀ q, herbs_used (Sorcerer.consume_one (VIngredient i) w1).2 !! q = herbs_used w1 !! q ∨
          (q = quality i ∧ c ≤ b ∧
           herbs_used (Sorcerer.consume_one (VIngredient i) w1).2 !! q = Some (b - c))) ∧
  (∀ node, keeps budget_kept (Sorcerer.consume_one node)) ∧
  (∀ v, keeps budget_kept (Sorcerer.consume_ingredient v g)) ∧
  keeps budget_kept (Sorcerer.optimize_potions g) ∧
  (∀ nodes_done optimized_potions,
     budget_nonneg
       (herbs_used (for_fold nodes_done optimized_potions (Sorcerer.optimize_one g)
                      (with_herbs_used Sorcerer.reset_budget w)).2)) ∧
  (∀ sorted_potions,
     topological_sort g = inr sorted_potions →
     budget_nonneg (herbs_used (Sorcerer.optimize_potions g w).2)).
Proof.
  assert (∀ w0, budget_kept w0 (with_herbs_used Sorcerer.reset_budget w0)) as Hreset.
  { intros w0 _. apply reset_budget_nonneg. }
  split; [apply reset_budget_nonneg|].
  split; [apply consume_one_deducts|].
  split; [apply consume_one_keeps_budget|].
  split; [intros v; apply (keeps_consume_ingredient _), consume_one_keeps_budget|].
  split; [by apply (keeps_optimize_potions _), Hreset; apply consume_one_keeps_budget|].
  assert (∀ l acc, keeps budget_kept (for_fold l acc (Sorcerer.optimize_one g))) as Hloop.
  { intros l acc. apply (keeps_for_fold budget_kept).
    intros acc' v. unfold Sorcerer.optimize_one. repeat keeps_step.
    - apply (keeps_call _).
    - apply (keeps_consume_ingredient _), consume_one_keeps_budget. }
  split; [intros l acc; apply Hloop, reset_budget_nonneg|].
  intros sorted Hsorted. unfold Sorcerer.optimize_potions.
  erewrite bind_inr by (rewrite Hsorted; reflexivity).
  erewrite bind_inr by reflexivity.
  apply Hloop, reset_budget_nonneg.
Qed.

(** A funded budget: the step takes the instance and its cost of 3 out
    of a budget of 5, and leaves a budget of 2 alone when the cost is 3. *)
Example consume_one_funded :
  let h := mkIngredient 0 Herb 3 "normal" in
  let w5 := with_herbs_used (<["normal" := 5]> ∅)
              (with_sorcerer_inventory (<["Herb" := [h]]> ∅) (initial [] [])) in
  let w2 := with_herbs_used (<["normal" := 2]> ∅) w5 in
  Sorcerer.consume_one (VIngredient h) w5
  = (inr tt, with_herbs_used (<["normal" := 2]> ∅)
               (with_sorcerer_inventory (<["Herb" := []]> ∅) (initial [] []))) ∧
  Sorcerer.consume_one (VIngredient h) w2 = (inr tt, w2).
Proof. by vm_compute. Qed.

(** A funded budget and no stock under the ingredient's name: the step
    raises [KeyError]; it does not skip the ingredient. *)
Example consume_one_missing_entry :
  let h := mkIngredient 0 Herb 3 "normal" in
  let w5 := with_herbs_used (<["normal" := 5]> ∅) (initial [] []) in
  Sorcerer.consume_one (VIngredient h) w5 = (inl KeyError, w5).
Proof. by vm_compute. Qed.

(** * The two inventories *)









(** * Topological sort of a potion graph *)

Lemma filter_all {A} (P : A → Prop) `{∀ x, Decision (P x)} (l : list A) :
  (∀ x, x ∈ l → P x) → filter P l = l.
Proof.
  induction l as [|y l IH]; [done|]. intros Hl.
  rewrite filter_cons_True by (apply Hl; left).
  f_equal. apply IH. intros x Hx. apply Hl. by right.
Qed.

Lemma filter_unique_key {A B} `{EqDecision B} (f : A → B) (l : list A) (x : A) :
  NoDup (f <$> l) → x ∈ l → filter (λ e, f e = f x) l = [x].
Proof.
  induction l as [|y l IH]; [by intros _ ?%elem_of_nil|].
  rewrite fmap_cons, NoDup_cons. intros [Hy Hnd] Hx.
  apply elem_of_cons in Hx as [->|Hx].
  - rewrite filter_cons_True by done. f_equal.
    apply filter_none. intros e He Heq. apply Hy. rewrite <- Heq.
    by apply list_elem_of_fmap_2.
  - rewrite filter_cons_False; [by apply IH|].
    intros Heq. apply Hy. rewrite Heq. by apply list_elem_of_fmap_2.
Qed.

Lemma elem_of_succ_list g u v : v ∈ succ_list g u ↔ (u, v) ∈ edges g.
Proof.
  unfold succ_list. rewrite list_elem_of_fmap. split.
  - intros ([u' v'] & -> & [Hu He]%list_elem_of_filter). cbn in *. by subst.
  - intros He. exists (u, v). split; [done|]. by apply list_elem_of_filter.
Qed.

Lemma elem_of_pred_list g u v : u ∈ pred_list g v ↔ (u, v) ∈ edges g.
Proof.
  unfold pred_list. rewrite list_elem_of_fmap. split.
  - intros ([u' v'] & -> & [Hu He]%list_elem_of_filter). cbn in *. by subst.
  - intros He. exists (u, v). split; [done|]. by apply list_elem_of_filter.
Qed.

Lemma elem_of_children g l v : v ∈ children g l ↔ ∃ u, u ∈ l ∧ (u, v) ∈ edges g.
Proof.
  unfold children. rewrite list_elem_of_In, in_concat. split.
  - intros (s & Hs & Hv). apply list_elem_of_In, list_elem_of_fmap in Hs as (u & -> & Hu).
    exists u. split; [done|]. by apply elem_of_succ_list, list_elem_of_In.
  - intros (u & Hu & He). exists (succ_list g u). split.
    + apply list_elem_of_In, list_elem_of_fmap. by exists u.
    + by apply list_elem_of_In, elem_of_succ_list.
Qed.

Lemma succ_list_nodup g u : NoDup (edges g).*2 → NoDup (succ_list g u).
Proof.
  unfold succ_list. generalize (edges g). intros l.
  induction l as [|e l IH]; [constructor|].
  rewrite fmap_cons, NoDup_cons. intros [He Hnd].
  destruct (decide (e.1 = u)).
  - rewrite filter_cons_True by done. rewrite fmap_cons. apply NoDup_cons. split; [|by apply IH].
    intros (e' & Heq & [_ He']%list_elem_of_filter)%list_elem_of_fmap.
    apply He. rewrite Heq. by apply list_elem_of_fmap_2.
  - rewrite filter_cons_False by done. by apply IH.
Qed.

(** An edge is the only one into its target when no target comes twice. *)
Lemma edge_source_unique (l : list (value * value)) u u' v :
  NoDup l.*2 → (u, v) ∈ l → (u', v) ∈ l → u = u'.
Proof.
  intros Hnd H1 H2.
  pose proof (filter_unique_key snd l (u, v) Hnd H1) as Hf.
  assert ((u', v) ∈ filter (λ e, e.2 = (u, v).2) l) as Hin
    by (by apply list_elem_of_filter).
  rewrite Hf in Hin. apply list_elem_of_singleton in Hin. congruence.
Qed.

Lemma children_nodup g l :
  NoDup (edges g).*2 → NoDup l → NoDup (children g l).
Proof.
  intros Hnd. induction l as [|u l IH]; [constructor|].
  rewrite NoDup_cons. intros [Hu Hl]. unfold children. cbn.
  apply NoDup_app. split; [by apply succ_list_nodup|]. split; [|by apply IH].
  intros v Hv%elem_of_succ_list (u' & Hu' & He)%elem_of_children.
  apply Hu. by rewrite (edge_source_unique _ _ _ _ Hnd Hv He).
Qed.

Section Bipartite.
Context (P : list value) (g : DiGraph) (Hg : bipartite P g).

Lemma bipartite_targets_nodup : NoDup (edges g).*2.
Proof.
  pose proof (bipartite_nodup _ _ Hg) as H.
  rewrite (bipartite_nodes _ _ Hg) in H. by apply NoDup_app in H as (_ & _ & ?).
Qed.

Lemma bipartite_sources_nodup : NoDup P.
Proof.
  pose proof (bipartite_nodup _ _ Hg) as H.
  rewrite (bipartite_nodes _ _ Hg) in H. by apply NoDup_app in H as (? & _ & _).
Qed.

Lemma bipartite_target_not_source u v : (u, v) ∈ edges g → v ∉ P.
Proof.
  intros He Hv. pose proof (bipartite_nodup _ _ Hg) as H.
  rewrite (bipartite_nodes _ _ Hg) in H. apply NoDup_app in H as (_ & H & _).
  apply (H v Hv). by apply (list_elem_of_fmap_2 snd _ (u, v)).
Qed.

Lemma bipartite_source_in_degree v : v ∈ P → in_degree g v = 0%nat.
Proof.
  intros Hv. unfold in_degree. apply length_zero_iff_nil.
  destruct (pred_list g v) as [|u l] eqn:Hl; [done|].
  assert (u ∈ pred_list g v) as Hu by (rewrite Hl; left).
  apply elem_of_pred_list in Hu. by destruct (bipartite_target_not_source _ _ Hu).
Qed.

Lemma bipartite_target_in_degree v : v ∈ (edges g).*2 → in_degree g v = 1%nat.
Proof.
  intros ([u v'] & -> & He)%list_elem_of_fmap. unfold in_degree, pred_list.
  rewrite (filter_unique_key snd (edges g) (u, v') bipartite_targets_nodup He). done.
Qed.

Lemma bipartite_target_no_successor v : v ∈ (edges g).*2 → succ_list g v = [].
Proof.
  intros ([u v'] & -> & He)%list_elem_of_fmap. cbn.
  destruct (succ_list g v') as [|x l] eqn:Hl; [done|].
  assert (x ∈ succ_list g v') as Hx by (rewrite Hl; left).
  apply elem_of_succ_list in Hx.
  pose proof (bipartite_sources _ _ Hg _ Hx) as Hsrc.
  by destruct (bipartite_target_not_source _ _ He).
Qed.

Lemma bipartite_zero_indegree : zero_indegree g = P.
Proof.
  unfold zero_indegree. rewrite (bipartite_nodes _ _ Hg), filter_app.
  rewrite filter_all by (intros v Hv; by apply bipartite_source_in_degree).
  rewrite filter_none; [by rewrite app_nil_r|].
  intros v Hv. by rewrite (bipartite_target_in_degree v Hv).
Qed.

Lemma bipartite_indegree_map v :
  indegree_map g !! v = if decide (v ∈ (edges g).*2) then Some 1%nat else None.
Proof.
  unfold indegree_map. destruct (decide (v ∈ (edges g).*2)) as [Hv|Hv].
  - apply elem_of_list_to_map.
    + rewrite <- list_fmap_compose. cbn. rewrite list_fmap_id.
      apply NoDup_filter, (bipartite_nodup _ _ Hg).
    + apply list_elem_of_fmap. exists v. split.
      * by rewrite (bipartite_target_in_degree v Hv).
      * apply list_elem_of_filter. split.
        -- by rewrite (bipartite_target_in_degree v Hv).
        -- rewrite (bipartite_nodes _ _ Hg). apply elem_of_app. by right.
  - apply not_elem_of_list_to_map. rewrite <- list_fmap_compose. cbn. rewrite list_fmap_id.
    intros [Hdeg Hin]%list_elem_of_filter.
    rewrite (bipartite_nodes _ _ Hg) in Hin. apply elem_of_app in Hin as [Hin|Hin]; [|done].
    by rewrite (bipartite_source_in_degree v Hin) in Hdeg.
Qed.

Lemma bipartite_children : children g P ≡ₚ (edges g).*2.
Proof.
  apply NoDup_Permutation.
  - apply children_nodup; [apply bipartite_targets_nodup | apply bipartite_sources_nodup].
  - apply bipartite_targets_nodup.
  - intros v. rewrite elem_of_children, list_elem_of_fmap. split.
    + intros (u & _ & He). by exists (u, v).
    + intros ([u v'] & -> & He). exists u. split; [|done].
      apply (bipartite_sources _ _ Hg _ He).
Qed.
End Bipartite.

(** Children that all wait for one last predecessor: each of them joins
    the next generation and leaves the count map. *)
Lemma visit_children_ones cs m zero :
  NoDup cs → (∀ c, c ∈ cs → m !! c = Some 1%nat) →
  ∃ m', visit_children (m, zero) cs = inr (m', zero ++ cs) ∧
        ∀ v, m' !! v = if decide (v ∈ cs) then None else m !! v.
Proof.
  revert m zero. induction cs as [|c cs IH]; intros m zero Hnd Hone.
  - exists m. split; [cbn; by rewrite app_nil_r|]. intros v.
    destruct (decide (v ∈ [])) as [?%elem_of_nil|]; done.
  - apply NoDup_cons in Hnd as [Hc Hnd]. cbn [visit_children].
    unfold visit_child. cbn [fst snd]. rewrite (Hone c) by left. cbn.
    rewrite decide_True by done.
    destruct (IH (delete c m) (zero ++ [c]) Hnd) as (m' & -> & Hm').
    { intros c' Hc'. rewrite lookup_delete_ne by (by intros ->). apply Hone. by right. }
    exists m'. split; [by rewrite <- app_assoc|]. intros v. rewrite Hm'.
    destruct (decide (v ∈ cs)) as [Hv|Hv].
    + rewrite decide_True by (by right). done.
    + destruct (decide (v = c)) as [->|Hne].
      * rewrite decide_True by left. apply lookup_delete_eq.
      * rewrite decide_False by (by intros [?|?]%elem_of_cons).
        by apply lookup_delete_ne.
Qed.

Lemma visit_generation_ones g ns m zero :
  (∀ n, n ∈ ns → n ∈ nodes g) → NoDup (children g ns) →
  (∀ c, c ∈ children g ns → m !! c = Some 1%nat) →
  ∃ m', visit_generation g (m, zero) ns = inr (m', zero ++ children g ns) ∧
        ∀ v, m' !! v = if decide (v ∈ children g ns) then None else m !! v.
Proof.
  revert m zero. induction ns as [|n ns IH]; intros m zero Hin Hnd Hone.
  - exists m. split; [cbn; by rewrite app_nil_r|]. intros v.
    destruct (decide (v ∈ children g [])) as [?%elem_of_nil|]; done.
  - unfold children in Hnd, Hone. cbn in Hnd, Hone. fold (children g ns) in Hnd, Hone.
    apply NoDup_app in Hnd as (Hnd1 & Hdisj & Hnd2).
    cbn [visit_generation]. rewrite decide_True by (apply Hin; left).
    destruct (visit_children_ones (succ_list g n) m zero Hnd1) as (m1 & -> & Hm1).
    { intros c Hc. apply Hone, elem_of_app. by left. }
    destruct (IH m1 (zero ++ succ_list g n)) as (m' & -> & Hm'); [| done | |].
    { intros n' Hn'. apply Hin. by right. }
    { intros c Hc. rewrite Hm1. rewrite decide_False by (intros Hc'; by apply (Hdisj c)).
      apply Hone, elem_of_app. by right. }
    exists m'. unfold children. cbn. fold (children g ns).
    split; [by rewrite <- app_assoc|]. intros v. rewrite Hm', Hm1.
    destruct (decide (v ∈ children g ns)) as [Hv|Hv].
    + rewrite decide_True by (apply elem_of_app; by right). done.
    + destruct (decide (v ∈ succ_list g n)) as [Hv'|Hv'].
      * rewrite decide_True by (apply elem_of_app; by left). done.
      * rewrite decide_False by (by intros [?|?]%elem_of_app). done.
Qed.

Lemma children_of_leaves g l : (∀ x, x ∈ l → succ_list g x = []) → children g l = [].
Proof.
  unfold children. induction l as [|x l IH]; [done|]. intros H.
  cbn. rewrite (H x) by left. apply IH. intros y Hy. apply H. by right.
Qed.

(** On a graph of the shape [generate_graph] builds, the sort returns:
    its result is the sources, in the order of the nodes, followed by
    their successors. *)
Lemma topological_sort_bipartite P g :
  bipartite P g → topological_sort g = inr (P ++ children g P).
Proof.
  intros Hg. unfold topological_sort. rewrite (bipartite_zero_indegree P g Hg).
  pose proof (bipartite_children P g Hg) as Hperm.
  assert (∀ v, v ∈ children g P ↔ v ∈ (edges g).*2) as Hmem by (intros v; by rewrite Hperm).
  destruct (visit_generation_ones g P (indegree_map g) []) as (m1 & Hgen1 & Hm1).
  { intros n Hn. rewrite (bipartite_nodes _ _ Hg). apply elem_of_app. by left. }
  { rewrite Hperm. by eapply bipartite_targets_nodup. }
  { intros c Hc. rewrite (bipartite_indegree_map P g Hg).
    rewrite decide_True; [done|]. by apply Hmem. }
  assert (m1 = ∅) as ->.
  { apply map_eq. intros v. rewrite Hm1, lookup_empty.
    destruct (decide (v ∈ children g P)) as [Hv|Hv]; [done|].
    rewrite (bipartite_indegree_map P g Hg). rewrite decide_False; [done|]. by rewrite <- Hmem. }
  cbn [app] in Hgen1.
  assert (children g (children g P) = []) as Hleaves.
  { apply children_of_leaves. intros x Hx%Hmem.
    by apply (bipartite_target_no_successor P g Hg). }
  destruct (visit_generation_ones g (children g P) ∅ []) as (m2 & Hgen2 & Hm2).
  { intros n Hn%Hmem. rewrite (bipartite_nodes _ _ Hg). apply elem_of_app. by right. }
  { rewrite Hleaves. constructor. }
  { intros c. rewrite Hleaves. by intros ?%elem_of_nil. }
  assert (m2 = ∅) as ->.
  { apply map_eq. intros v. rewrite Hm2, Hleaves. by rewrite decide_False by apply not_elem_of_nil. }
  rewrite Hleaves in Hgen2. cbn [app] in Hgen2.
  replace (size (indegree_map g) + 2)%nat with (S (S (size (indegree_map g)))) by lia.
  cbn [generations]. destruct P as [|p P'] eqn:HP.
  { rewrite (children_of_leaves g []) in * by (by intros x ?%elem_of_nil).
    assert (indegree_map g = ∅) as ->.
    { apply map_eq. intros v. rewrite (bipartite_indegree_map [] g Hg), lookup_empty.
      rewrite decide_False; [done|]. rewrite <- Hmem. apply not_elem_of_nil. }
    by rewrite decide_True. }
  rewrite <- HP in *. rewrite Hgen1.
  destruct (children g P) as [|c cs] eqn:HC.
  { destruct (size (indegree_map g)); cbn; rewrite decide_True by done; by rewrite app_nil_r. }
  rewrite <- HC in *.
  assert (size (indegree_map g) ≠ 0%nat) as Hsize.
  { apply map_size_non_empty_iff. intros Hempty.
    pose proof (bipartite_indegree_map P g Hg c) as Hc. rewrite Hempty, lookup_empty in Hc.
    rewrite decide_True in Hc; [done|]. apply Hmem. rewrite HC. left. }
  destruct (size (indegree_map g)) as [|n]; [done|].
  cbn [generations]. rewrite HC. rewrite <- HC. rewrite Hgen2.
  destruct n; cbn; by rewrite decide_True.
Qed.

(** * The sort never runs out of fuel *)

Lemma visit_child_size m zero c m' zero' :
  visit_child (m, zero) c = inr (m', zero') →
  (size m' + length zero' = size m + length zero)%nat.
Proof.
  unfold visit_child. cbn [fst snd]. destruct (m !! c) as [d|] eqn:Hc; [|done].
  assert (size m ≠ 0%nat) as Hsize by (by eapply map_size_ne_0_lookup_2).
  destruct (decide (Nat.pred d = 0%nat)); intros [= <- <-].
  - rewrite map_size_delete_Some by done. rewrite length_app. cbn. lia.
  - by rewrite map_size_insert_Some.
Qed.

Lemma visit_children_size cs m zero m' zero' :
  visit_children (m, zero) cs = inr (m', zero') →
  (size m' + length zero' = size m + length zero)%nat.
Proof.
  revert m zero. induction cs as [|c cs IH]; intros m zero; cbn [visit_children].
  - by intros [= <- <-].
  - destruct (visit_child (m, zero) c) as [e|[m1 zero1]] eqn:Hc; [done|].
    intros Hrest%IH. apply visit_child_size in Hc. lia.
Qed.

Lemma visit_generation_size g ns m zero m' zero' :
  visit_generation g (m, zero) ns = inr (m', zero') →
  (size m' + length zero' = size m + length zero)%nat.
Proof.
  revert m zero. induction ns as [|n ns IH]; intros m zero; cbn [visit_generation].
  - by intros [= <- <-].
  - destruct (decide (n ∈ nodes g)) as [Hn|Hn]; [|done].
    destruct (visit_children (m, zero) (succ_list g n)) as [e|[m1 zero1]] eqn:Hc; [done|].
    intros Hrest%IH. apply visit_children_size in Hc. lia.
Qed.

(** Each generation after the first takes its nodes out of the count
    map, so the loop ends before the fuel does. *)
Lemma generations_total fuel g m zero sorted :
  (1 ≤ fuel)%nat → (zero ≠ [] → size m + 2 ≤ fuel)%nat →
  is_Some (generations fuel g m zero sorted).
Proof.
  revert m zero sorted. induction fuel as [|fuel IH]; intros m zero sorted Hpos Hfuel; [lia|].
  cbn [generations]. destruct zero as [|z zero]; [done|].
  destruct (visit_generation g (m, []) (z :: zero)) as [e|[m' zero']] eqn:Hgen; [done|].
  apply visit_generation_size in Hgen. cbn in Hgen.
  specialize (Hfuel ltac:(done)). apply IH; [lia|].
  intros Hne. destruct zero' as [|z' zero']; [done|]. cbn in Hgen. lia.
Qed.

Lemma topological_sort_total g :
  is_Some (generations (size (indegree_map g) + 2) g (indegree_map g) (zero_indegree g) []).
Proof. apply generations_total; lia. Qed.

(** * Brewing *)

Lemma insert_at_Permutation {A} n (x : A) l : insert_at n x l ≡ₚ x :: l.
Proof.
  revert n. induction l as [|y l IH]; intros [|n]; cbn; try done.
  rewrite IH. apply Permutation_swap.
Qed.

Lemma permute_Permutation {A} seed (l : list A) : permute seed l ≡ₚ l.
Proof.
  revert seed. induction l as [|x l IH]; intros seed; cbn; [done|].
  rewrite insert_at_Permutation. by rewrite IH.
Qed.

Lemma fresh_ingredients_triple n l : triple <$> fresh_ingredients n l = l.
Proof.
  revert n. induction l as [|[[c q] ql] l IH]; intros n; cbn; [done|]. by rewrite IH.
Qed.

Lemma fresh_ingredients_id n l i :
  i ∈ fresh_ingredients n l → (n ≤ ing_id i < n + length l)%nat.
Proof.
  revert n. induction l as [|r l IH]; intros n; cbn; [by intros ?%elem_of_nil|].
  intros [->|Hi%IH]%elem_of_cons; cbn; lia.
Qed.

Lemma fresh_ingredients_nodup n l : NoDup (fresh_ingredients n l).
Proof.
  revert n. induction l as [|r l IH]; intros n; cbn; [constructor|].
  apply NoDup_cons. split; [|apply IH].
  intros Hin%fresh_ingredients_id. cbn in Hin. lia.
Qed.

Lemma map_M_new_ingredient l w :
  map_M (λ r, new_ingredient r.1.1 r.1.2 r.2) l w
  = (inr (fresh_ingredients (next_id w) l), with_next_id (next_id w + length l) w).
Proof.
  revert w. induction l as [|r l IH]; intros w; cbn [map_M fresh_ingredients length].
  - unfold ret. f_equal. destruct w; unfold with_next_id; cbn. f_equal. lia.
  - unfold bind at 1. unfold new_ingredient at 1. unfold bind at 1, alloc at 1. cbn [ret].
    unfold bind at 1. rewrite IH. cbn [ret next_id with_next_id]. f_equal.
    unfold with_next_id; cbn. f_equal. lia.
Qed.

(** What [brew] returns and where it leaves the store: the recipe's
    ingredients as new instances, in the order the layout gives the set. *)
Lemma brew_unfold p w :
  brew p w
  = (inr (permute (hd 0%nat (layout w))
            (fresh_ingredients (next_id w) (recipe (potion_class p)))),
     with_layout (tail (layout w))
       (with_next_id (next_id w + length (recipe (potion_class p)))
          (with_extra_powers (<[potion_id p := Z.of_nat (hd 0%nat (rng w))]> (extra_powers w))
             (with_rng (tail (rng w))
                (with_stdout (stdout w ++ [Text (brew_message (potion_class p))]) w))))).
Proof.
  unfold brew.
  erewrite bind_inr by reflexivity.
  erewrite bind_inr by reflexivity.
  erewrite bind_inr by reflexivity.
  erewrite bind_inr by apply map_M_new_ingredient.
  reflexivity.
Qed.

Lemma brew_returns p w l w' :
  brew p w = (inr l, w') →
  l ≡ₚ fresh_ingredients (next_id w) (recipe (potion_class p)) ∧
  next_id w' = (next_id w + length (recipe (potion_class p)))%nat.
Proof.
  rewrite brew_unfold. intros [= <- <-]. split; [apply permute_Permutation|done].
Qed.

Lemma brew_total p w : ∃ l w', brew p w = (inr l, w').
Proof. rewrite brew_unfold. by eexists _, _. Qed.

(** * Building the potion graph *)

Lemma bipartite_source_node P g u : bipartite P g → u ∈ P → u ∈ nodes g.
Proof. intros Hg Hu. rewrite (bipartite_nodes _ _ Hg). apply elem_of_app. by left. Qed.

Lemma bipartite_target_node P g e : bipartite P g → e ∈ edges g → e.2 ∈ nodes g.
Proof.
  intros Hg He. rewrite (bipartite_nodes _ _ Hg). apply elem_of_app. right.
  by apply list_elem_of_fmap_2.
Qed.

Lemma add_node_old n g : n ∈ nodes g → add_node n g = g.
Proof. intros H. unfold add_node. by rewrite decide_True. Qed.

Lemma add_node_new n g : n ∉ nodes g → add_node n g = mkDiGraph (nodes g ++ [n]) (edges g).
Proof. intros H. unfold add_node. by rewrite decide_False. Qed.

(** An edge from a source to a node the graph does not hold yet. *)
Lemma add_edge_new P g u v :
  bipartite P g → u ∈ P → v ∉ nodes g → u ≠ VNone → v ≠ VNone →
  add_edge u v g = inr (mkDiGraph (nodes g ++ [v]) (edges g ++ [(u, v)])) ∧
  bipartite P (mkDiGraph (nodes g ++ [v]) (edges g ++ [(u, v)])).
Proof.
  intros Hg Hu Hv Hu0 Hv0. split.
  - unfold add_edge. rewrite decide_False by (by intros [?|?]).
    rewrite (add_node_old u) by (by eapply bipartite_source_node).
    rewrite (add_node_new v) by done. cbn [edges nodes].
    rewrite decide_False; [done|].
    intros He. apply Hv. apply (bipartite_target_node P g (u, v) Hg He).
  - split; cbn [nodes edges].
    + rewrite (bipartite_nodes _ _ Hg), fmap_app. cbn. by rewrite app_assoc.
    + apply NoDup_app. split; [apply (bipartite_nodup _ _ Hg)|]. split; [|apply NoDup_singleton].
      intros x Hx ->%list_elem_of_singleton. done.
    + intros e [He| ->%list_elem_of_singleton]%elem_of_app; [|done].
      by apply (bipartite_sources _ _ Hg).
Qed.

(** The inner loop of [generate_graph]: one edge per ingredient, each to
    a node of its own. *)
Lemma add_requirement_edges P g p l w :
  bipartite P g → VPotion p ∈ P → NoDup l →
  (∀ i, i ∈ l → VIngredient i ∉ nodes g) →
  ∃ g',
    for_fold l g (λ potion_graph ingredient,
                    lift (add_edge (VPotion p) (VIngredient ingredient) potion_graph)) w
    = (inr g', w) ∧
    bipartite P g' ∧
    nodes g' = nodes g ++ (VIngredient <$> l) ∧
    edges g' = edges g ++ ((λ i, (VPotion p, VIngredient i)) <$> l).
Proof.
  revert g. induction l as [|i l IH]; intros g Hg Hp Hnd Hnew.
  - exists g. cbn. by rewrite !app_nil_r.
  - apply NoDup_cons in Hnd as [Hi Hnd].
    destruct (add_edge_new P g (VPotion p) (VIngredient i) Hg Hp) as [Hadd Hg']; [|done|done|].
    { apply Hnew. left. }
    destruct (IH _ Hg' Hp Hnd) as (g' & Hloop & Hg'' & Hnodes & Hedges).
    { intros j Hj. cbn [nodes]. intros [Hin|Heq%list_elem_of_singleton]%elem_of_app.
      - apply (Hnew j); [by right|done].
      - by simplify_eq. }
    exists g'. cbn [for_fold]. erewrite bind_inr by (rewrite Hadd; reflexivity).
    split; [done|]. split; [done|]. cbn [nodes edges] in Hnodes, Hedges.
    rewrite Hnodes, Hedges, !fmap_cons, <- !app_assoc. done.
Qed.

(** Only potion instances pass the outer loop. *)
Lemma brew_into_potions potions g w g' w' :
  for_fold potions g Sorcerer.brew_into w = (inr g', w') → ∃ ps, potions = VPotion <$> ps.
Proof.
  revert g w. induction potions as [|v potions IH]; intros g w; [by exists []|].
  cbn [for_fold]. intros (g1 & w1 & Hbody & Hrest)%bind_returns.
  destruct (IH _ _ Hrest) as [ps ->].
  destruct v as [|c|p|i]; try (by cbn in Hbody).
  by exists (p :: ps).
Qed.

Lemma requirement_edges_cons p l ps reqs :
  requirement_edges (p :: ps) (l :: reqs)
  = ((λ i, (VPotion p, VIngredient i)) <$> l) ++ requirement_edges ps reqs.
Proof. done. Qed.

(** The outer loop of [generate_graph], started on a graph that holds
    the potions as sources and no ingredient the store has yet to build:
    it returns. *)
Lemma brew_into_loop P ps g w :
  bipartite P g → (∀ p, p ∈ ps → VPotion p ∈ P) →
  (∀ i, VIngredient i ∈ nodes g → (ing_id i < next_id w)%nat) →
  ∃ g' w' reqs,
    for_fold (VPotion <$> ps) g Sorcerer.brew_into w = (inr g', w') ∧
    Forall2 (λ p l, triple <$> l ≡ₚ recipe (potion_class p)) ps reqs ∧
    bipartite P g' ∧
    nodes g' = nodes g ++ (VIngredient <$> concat reqs) ∧
    edges g' = edges g ++ requirement_edges ps reqs.
Proof.
  revert g w. induction ps as [|p ps IH]; intros g w Hg Hps Hold.
  - exists g, w, []. cbn. by rewrite !app_nil_r.
  - destruct (brew_total p w) as (l & w2 & Hbrew).
    apply brew_returns in Hbrew as Hl. destruct Hl as [Hperm Hnext].
    assert (NoDup l) as Hnd by (rewrite Hperm; apply fresh_ingredients_nodup).
    assert (∀ i, i ∈ l → (next_id w ≤ ing_id i < next_id w2)%nat) as Hids.
    { intros i Hi. rewrite Hperm in Hi. apply fresh_ingredients_id in Hi. lia. }
    destruct (add_requirement_edges P g p l w2 Hg) as (g2 & Hloop & Hg2 & Hnodes & Hedges);
      [apply Hps; left | done | |].
    { intros i Hi Hin. apply Hold in Hin. apply Hids in Hi. lia. }
    destruct (IH g2 w2 Hg2) as (g' & w' & reqs & Hrest & Hreqs & Hg' & Hnodes' & Hedges').
    { intros q Hq. apply Hps. by right. }
    { intros i. rewrite Hnodes. intros [Hin|Hin]%elem_of_app.
      - apply Hold in Hin. lia.
      - apply list_elem_of_fmap in Hin as (j & [= ->] & Hj). apply Hids in Hj. lia. }
    exists g', w', (l :: reqs). split; [|split; [|split; [done|]]].
    + rewrite fmap_cons. cbn [for_fold].
      erewrite bind_inr; [exact Hrest|].
      unfold Sorcerer.brew_into. cbn [call_brew]. by erewrite bind_inr by exact Hbrew.
    + constructor; [|done]. by rewrite Hperm, fresh_ingredients_triple.
    + rewrite Hnodes', Hedges', Hnodes, Hedges, requirement_edges_cons.
      cbn [concat]. by rewrite fmap_app, <- !app_assoc.
Qed.

Lemma add_node_nodup n g : NoDup (nodes g) → NoDup (nodes (add_node n g)).
Proof.
  intros Hnd. unfold add_node. destruct (decide (n ∈ nodes g)); [done|]. cbn.
  apply NoDup_app. split; [done|]. split; [|apply NoDup_singleton].
  by intros x Hx ->%list_elem_of_singleton.
Qed.

Lemma elem_of_add_node v n g : v ∈ nodes (add_node n g) ↔ v ∈ nodes g ∨ v = n.
Proof.
  unfold add_node. destruct (decide (n ∈ nodes g)) as [Hn|Hn]; cbn.
  - split; [by left|]. by intros [?| ->].
  - rewrite elem_of_app, list_elem_of_singleton. done.
Qed.

(** [add_nodes_from] keeps the first of equal nodes, in the order given. *)
Lemma add_nodes_from_returns ns g g' :
  add_nodes_from ns g = inr g' → NoDup (nodes g) →
  edges g' = edges g ∧ NoDup (nodes g') ∧
  (∀ v, v ∈ nodes g' ↔ v ∈ nodes g ∨ v ∈ ns) ∧
  (NoDup (nodes g ++ ns) → nodes g' = nodes g ++ ns).
Proof.
  revert g. induction ns as [|n ns IH]; intros g; cbn [add_nodes_from].
  - intros [= <-] Hnd. split; [done|]. split; [done|]. split.
    + intros v. split; [by left|]. by intros [?|?%elem_of_nil].
    + by rewrite app_nil_r.
  - destruct (decide (n = VNone)); [done|]. intros Hrest Hnd.
    destruct (IH _ Hrest (add_node_nodup n g Hnd)) as (He & Hnd' & Hmem & Hexact).
    split; [rewrite He; unfold add_node; by destruct (decide _)|]. split; [done|]. split.
    + intros v. rewrite Hmem, elem_of_add_node, elem_of_cons. tauto.
    + intros Hall.
      assert (n ∉ nodes g) as Hn.
      { apply NoDup_app in Hall as (_ & Hdisj & _). intros Hn. apply (Hdisj n Hn). left. }
      rewrite (add_node_new n g Hn) in Hexact. cbn [nodes] in Hexact.
      rewrite Hexact; by rewrite <- app_assoc.
Qed.

Global Instance VPotion_inj : Inj (=) (=) VPotion.
Proof. by intros p q [= ->]. Qed.

Global Instance VIngredient_inj : Inj (=) (=) VIngredient.
Proof. by intros i j [= ->]. Qed.

Lemma add_nodes_from_potions ps g : ∃ g', add_nodes_from (VPotion <$> ps) g = inr g'.
Proof.
  revert g. induction ps as [|p ps IH]; intros g; [by exists g|].
  rewrite fmap_cons. cbn [add_nodes_from]. rewrite decide_False by done. apply IH.
Qed.

(** [generate_graph] returns on every list of potion instances. The
    nodes of its graph are these instances, each once, followed by one
    new ingredient instance per entry of the recipe of each potion
    given, and the edges lead from each potion to the instances its
    brew built. *)
Lemma generate_graph_potions ps w :
  ∃ g w' P reqs,
    Sorcerer.generate_graph (VPotion <$> ps) w = (inr g, w') ∧
    NoDup P ∧ (∀ v, v ∈ P ↔ v ∈ VPotion <$> ps) ∧ (NoDup ps → P = VPotion <$> ps) ∧
    Forall2 (λ p l, triple <$> l ≡ₚ recipe (potion_class p)) ps reqs ∧
    bipartite P g ∧
    nodes g = P ++ (VIngredient <$> concat reqs) ∧
    edges g = requirement_edges ps reqs.
Proof.
  destruct (add_nodes_from_potions ps empty_graph) as [g0 Hadd].
  destruct (add_nodes_from_returns _ _ _ Hadd) as (He & Hnd & Hmem & Hexact); [constructor|].
  cbn [nodes edges empty_graph] in *.
  assert (bipartite (nodes g0) g0) as Hg0.
  { split; [by rewrite He, app_nil_r | done | rewrite He; by intros e ?%elem_of_nil]. }
  destruct (brew_into_loop (nodes g0) ps g0 w Hg0)
    as (g & w' & reqs & Hloop & Hreqs & Hg & Hnodes & Hedges).
  { intros p Hp. apply Hmem. right. by apply list_elem_of_fmap_2. }
  { intros i [?%elem_of_nil|(p & [=] & _)%list_elem_of_fmap]%Hmem. done. }
  exists g, w', (nodes g0), reqs. rewrite He in Hedges.
  split.
  { unfold Sorcerer.generate_graph.
    by erewrite bind_inr by (rewrite Hadd; reflexivity). }
  split; [done|]. split.
  { intros v. rewrite Hmem. split; [by intros [?%elem_of_nil|?]|by right]. }
  split; [|done].
  intros Hps. apply Hexact. cbn. by apply (NoDup_fmap_2 _).
Qed.

(** [generate_graph] returns only when it was given potion instances. *)
Lemma generate_graph_returns potions w g w' :
  Sorcerer.generate_graph potions w = (inr g, w') →
  ∃ P ps reqs,
    potions = VPotion <$> ps ∧
    NoDup P ∧ (∀ v, v ∈ P ↔ v ∈ potions) ∧ (NoDup ps → P = potions) ∧
    Forall2 (λ p l, triple <$> l ≡ₚ recipe (potion_class p)) ps reqs ∧
    bipartite P g ∧
    nodes g = P ++ (VIngredient <$> concat reqs) ∧
    edges g = requirement_edges ps reqs.
Proof.
  intros Hrun. assert (∃ ps, potions = VPotion <$> ps) as [ps ->].
  { revert Hrun. unfold Sorcerer.generate_graph.
    intros (g0 & w0 & _ & Hloop)%bind_returns. by eapply brew_into_potions. }
  destruct (generate_graph_potions ps w) as (g1 & w1 & P & reqs & Hrun' & H).
  rewrite Hrun in Hrun'. injection Hrun' as <- <-.
  by exists P, ps, reqs.
Qed.

(** * The nodes and edges of a potion graph *)

Lemma requirement_edges_targets ps reqs :
  length ps = length reqs →
  (requirement_edges ps reqs).*2 = VIngredient <$> concat reqs.
Proof.
  revert reqs. induction ps as [|p ps IH]; intros [|l reqs]; try done.
  intros [= Hlen]. rewrite requirement_edges_cons. cbn [concat].
  rewrite !fmap_app, (IH _ Hlen). f_equal.
  rewrite <- list_fmap_compose. done.
Qed.

Lemma requirement_edges_sources ps reqs e :
  e ∈ requirement_edges ps reqs → ∃ p i, e = (VPotion p, VIngredient i) ∧ p ∈ ps.
Proof.
  revert reqs. induction ps as [|p ps IH]; intros [|l reqs]; try (by intros ?%elem_of_nil).
  rewrite requirement_edges_cons. intros [Hin|Hin]%elem_of_app.
  - apply list_elem_of_fmap in Hin as (i & -> & _). exists p, i. split; [done|left].
  - destruct (IH _ Hin) as (q & i & -> & Hq). exists q, i. split; [done|by right].
Qed.

Lemma requirement_count ps reqs :
  Forall2 (λ p l, triple <$> l ≡ₚ recipe (potion_class p)) ps reqs →
  length (concat reqs) = sum_list ((λ p, length (recipe (potion_class p))) <$> ps).
Proof.
  induction 1 as [|p l ps reqs Hl _ IH]; [done|].
  cbn [concat]. rewrite length_app, IH, fmap_cons. cbn. f_equal.
  by rewrite <- Hl, length_fmap.
Qed.

Lemma requirement_nodes_potions (P : list value) (l : list Ingredient) g :
  nodes g = P ++ (VIngredient <$> l) → (∀ v, v ∈ P → ∃ p, v = VPotion p) →
  requirement_nodes g = VIngredient <$> l.
Proof.
  intros Hn HP. unfold requirement_nodes. rewrite Hn, filter_app.
  rewrite filter_none, filter_all; [done|..].
  - by intros v (i & -> & _)%list_elem_of_fmap.
  - intros v Hv. by destruct (HP v Hv) as [p ->].
Qed.

Lemma distinct_count {A} `{EqDecision A} (l1 l2 : list A) :
  NoDup l1 → (∀ x, x ∈ l1 ↔ x ∈ l2) → length l1 = length (remove_dups l2).
Proof.
  intros Hnd Hmem. apply Permutation_length, NoDup_Permutation; [done|apply NoDup_remove_dups|].
  intros x. by rewrite elem_of_remove_dups.
Qed.

(** C4, as the code has it. When [generate_graph] returns, it was given
    potion instances, and its graph holds one node per distinct instance
    given and, for every potion given, one new node per entry of its
    recipe: an ingredient instance of the entry's kind, quantity and
    quality. These nodes are pairwise distinct, also where two entries
    name the same kind, quantity and quality. There is exactly one edge
    per such node, from the potion whose brew built it. *)
Theorem generate_graph_nodes_and_edges
    (potions : list value) (w : world) (g : DiGraph) (w' : world) :
  Sorcerer.generate_graph potions w = (inr g, w') →
  ∃ (ps : list Potion) (reqs : list (list Ingredient)),
    potions = VPotion <$> ps ∧
    Forall2 (λ p l, triple <$> l ≡ₚ recipe (potion_class p)) ps reqs ∧
    NoDup (nodes g) ∧
    (∀ v, v ∈ nodes g ↔ v ∈ potions ∨ v ∈ requirement_nodes g) ∧
    (NoDup ps → nodes g = potions ++ requirement_nodes g) ∧
    requirement_nodes g = VIngredient <$> concat reqs ∧
    length (requirement_nodes g)
    = sum_list ((λ p, length (recipe (potion_class p))) <$> ps) ∧
    length (nodes g) = (length (remove_dups potions) + length (requirement_nodes g))%nat ∧
    edges g = requirement_edges ps reqs ∧
    (edges g).*2 = requirement_nodes g.
Proof.
  intros (P & ps & reqs & -> & HP & Hmem & Hexact & Hreqs & Hg & Hnodes & Hedges)
    %generate_graph_returns.
  assert (requirement_nodes g = VIngredient <$> concat reqs) as Hreq.
  { apply (requirement_nodes_potions P); [done|].
    intros v (p & -> & _)%Hmem%list_elem_of_fmap. by exists p. }
  exists ps, reqs. rewrite Hreq.
  split; [done|]. split; [done|]. split; [apply (bipartite_nodup _ _ Hg)|]. split.
  { intros v. rewrite Hnodes, elem_of_app, Hmem. done. }
  split; [intros Hps; by rewrite Hnodes, (Hexact Hps)|].
  split; [done|]. split.
  { rewrite length_fmap. by apply requirement_count. }
  split.
  { rewrite Hnodes, length_app. f_equal. by apply distinct_count. }
  split; [done|].
  rewrite Hedges. apply requirement_edges_targets. by eapply Forall2_length.
Qed.

(** C4 fails as stated: the healing and the invisibility potion both
    require one normal root, and the graph holds a node for each of the
    two entries: nine requirement nodes, nine edges, eight distinct
    requirements. *)
Lemma generate_graph_node_per_entry :
  Sorcerer.generate_graph (VPotion <$> active_instances three_potions) three_potions
  = (inr three_potions_graph, three_potions_after) ∧
  length (requirement_nodes three_potions_graph) = 9%nat ∧
  length (edges three_potions_graph) = 9%nat ∧
  length (distinct_requirements three_potions_graph) = 8%nat ∧
  length (filter (λ v, node_triple v = Some (Root, 1, "normal")) (nodes three_potions_graph))
  = 2%nat.
Proof. by vm_compute. Qed.

(** * The order of the allocation pass *)



(** The allocation pass runs its loop over the sorted nodes, from the
    reset budget. *)
Lemma optimize_potions_sorted g sorted_potions w :
  topological_sort g = inr sorted_potions →
  Sorcerer.optimize_potions g w
  = for_fold sorted_potions [] (Sorcerer.optimize_one g)
      (with_herbs_used Sorcerer.reset_budget w).
Proof.
  intros H. unfold Sorcerer.optimize_potions.
  erewrite bind_inr by (rewrite H; reflexivity). by erewrite bind_inr by reflexivity.
Qed.


(** * The allocation pass on a potion graph *)

(** The pass calls every node of the sorted list as a class. The first
    node of a graph [generate_graph] built is a potion instance, which
    cannot be called. *)
Lemma optimize_potions_generated potions w g w' w2 :
  potions ≠ [] → Sorcerer.generate_graph potions w = (inr g, w') →
  Sorcerer.optimize_potions g w2 = (inl TypeError, with_herbs_used Sorcerer.reset_budget w2).
Proof.
  intros Hne Hrun.
  destruct (generate_graph_returns _ _ _ _ Hrun)
    as (P & ps & reqs & -> & HP & Hmem & _ & _ & Hg & _).
  rewrite (optimize_potions_sorted g _ w2 (topological_sort_bipartite P g Hg)).
  destruct P as [|v P'].
  { destruct ps as [|p ps]; [done|].
    assert (VPotion p ∈ @nil value) as ?%elem_of_nil by (apply Hmem; left). done. }
  assert (v ∈ VPotion <$> ps) as (p & -> & _)%list_elem_of_fmap by (apply Hmem; left).
  done.
Qed.

(** C1, on the code: the pass raises. For every graph [generate_graph]
    built from at least one potion, and every store, [optimize_potions]
    raises [TypeError]. *)
Theorem optimize_potions_raises
    (potions : list value) (w : world) (g : DiGraph) (w' w2 : world) :
  potions ≠ [] → Sorcerer.generate_graph potions w = (inr g, w') →
  (Sorcerer.optimize_potions g w2).1 = inl TypeError.
Proof. intros Hne Hrun. by rewrite (optimize_potions_generated _ _ _ _ w2 Hne Hrun). Qed.

(** C2, on the code: the pass hands back no potion. For every graph
    [generate_graph] built from at least one potion, [optimize_potions]
    raises [TypeError] where the claim has it return the potions; the
    store it leaves differs from the one it found in the reset budget
    only, so the inventories are as they were. *)
Theorem optimize_potions_returns_nothing
    (potions : list value) (w : world) (g : DiGraph) (w' w2 : world) :
  potions ≠ [] → Sorcerer.generate_graph potions w = (inr g, w') →
  Sorcerer.optimize_potions g w2 = (inl TypeError, with_herbs_used Sorcerer.reset_budget w2) ∧
  sorcerer_inventory (Sorcerer.optimize_potions g w2).2 = sorcerer_inventory w2 ∧
  botanist_inventory (Sorcerer.optimize_potions g w2).2 = botanist_inventory w2.
Proof. intros Hne Hrun. by rewrite (optimize_potions_generated _ _ _ _ w2 Hne Hrun). Qed.

(** The graph the program means to build fares no better: the pass
    instantiates the three classes and raises on the first ingredient
    node. *)
Example optimize_potions_intended_graph :
  topological_sort intended_graph = inr (nodes intended_graph) ∧
  (Sorcerer.optimize_potions intended_graph (initial [] [])).1 = inl TypeError ∧
  length (active_instances (Sorcerer.optimize_potions intended_graph (initial [] [])).2) = 3%nat.
Proof. by vm_compute. Qed.

(** The program itself stops earlier: [generate_graph] is handed the
    potion classes and calls [brew] on a class. *)
Example script_raises tape slots : (script (initial tape slots)).1 = inl TypeError.
Proof. reflexivity. Qed.

(** * Generating a potion *)

Lemma for_each_print {X} (f : X → line) (l : list X) w :
  for_each l (λ x, print (f x)) w = (inr tt, with_stdout (stdout w ++ (f <$> l)) w).
Proof.
  revert w. induction l as [|x l IH]; intros w; cbn [for_each].
  - unfold ret. f_equal. destruct w; unfold with_stdout; cbn. by rewrite app_nil_r.
  - erewrite bind_inr by reflexivity. rewrite IH. f_equal.
    unfold with_stdout; cbn. by rewrite <- app_assoc.
Qed.

Lemma new_potion_unfold c w :
  new_potion c w
  = (inr (mkPotion (next_id w) c),
     with_extra_powers (<[next_id w := 0]> (extra_powers w))
       (with_active_instances (active_instances w ++ [mkPotion (next_id w) c])
          (with_next_id (S (next_id w)) w))).
Proof. reflexivity. Qed.

Lemma call_class c w :
  call (VClass c) w
  = (inr (VPotion (mkPotion (next_id w) c)),
     with_extra_powers (<[next_id w := 0]> (extra_powers w))
       (with_active_instances (active_instances w ++ [mkPotion (next_id w) c])
          (with_next_id (S (next_id w)) w))).
Proof. reflexivity. Qed.

(** [generate_potion] on a graph whose drawn node is the class [c]. *)
Lemma generate_potion_class g w c :
  nodes g !! (tape w 0 mod length (nodes g))%nat = Some (VClass c) →
  let p := mkPotion (next_id w) c in
  let ingredients :=
    permute (hd 0%nat (layout w)) (fresh_ingredients (S (next_id w)) (recipe c)) in
  Sorcerer.generate_potion g w
  = (inr (VPotion p),
     with_stdout
       (stdout w ++ [Text (brew_message c); Text "Generated potion ingredients:"] ++
        ((λ i, IngredientLine (quantity i) (quality i) (get_name i)) <$> ingredients))
       (with_layout (tail (layout w))
          (with_next_id (S (next_id w) + length (recipe c))
             (with_extra_powers
                (<[next_id w := Z.of_nat (tape w 1)]> (<[next_id w := 0]> (extra_powers w)))
                (with_rng (tail (tail (rng w)))
                   (with_active_instances (active_instances w ++ [p]) w)))))).
Proof.
  intros Hnode p ingredients. unfold Sorcerer.generate_potion.
  assert (nodes g ≠ []) as Hne by (intros Hnil; by rewrite Hnil in Hnode).
  erewrite bind_inr by (rewrite (choice_nonempty _ VNone) by done; rewrite Hnode; reflexivity).
  erewrite bind_inr by apply call_class.
  cbn [call_brew]. erewrite bind_inr by apply brew_unfold.
  erewrite bind_inr by reflexivity. erewrite bind_inr by apply for_each_print.
  unfold ret. f_equal. rewrite tape_S, tape_0. subst p ingredients.
  unfold with_stdout; cbn. f_equal. by rewrite <- !app_assoc.
Qed.

(** What [generate_potion] does on a graph that holds a potion class,
    as the graph the program means to build does and no graph
    [generate_graph] returns: when the node drawn is a class, it makes
    a new instance of the class, brews it, prints the ingredients of
    the brew, and returns the potion alone; neither inventory changes.
    The draw is [choice] over the list of nodes: each node is the
    choice of exactly one draw below the number of nodes. *)
Lemma generate_potion_returns_potion (g : DiGraph) (w : world) (c : PotionClass) :
  nodes g !! (tape w 0 mod length (nodes g))%nat = Some (VClass c) →
  let p := mkPotion (next_id w) c in
  ∃ w' ingredients,
    Sorcerer.generate_potion g w = (inr (VPotion p), w') ∧
    active_instances w' = active_instances w ++ [p] ∧
    extra_powers w' !! potion_id p = Some (Z.of_nat (tape w 1)) ∧
    ingredients ≡ₚ fresh_ingredients (S (next_id w)) (recipe c) ∧
    triple <$> ingredients ≡ₚ recipe c ∧
    stdout w'
    = stdout w ++ [Text (brew_message c); Text "Generated potion ingredients:"] ++
      ((λ i, IngredientLine (quantity i) (quality i) (get_name i)) <$> ingredients) ∧
    sorcerer_inventory w' = sorcerer_inventory w ∧
    botanist_inventory w' = botanist_inventory w ∧
    (NoDup (nodes g) →
     ∀ v, v ∈ nodes g →
          length (filter (λ r, nodes g !! (r mod length (nodes g))%nat = Some v)
                    (seq 0 (length (nodes g)))) = 1%nat).
Proof.
  intros Hnode p. rewrite (generate_potion_class g w c Hnode).
  eexists _, _. split; [reflexivity|]. cbn.
  split; [done|]. split; [by rewrite lookup_insert_eq|].
  split; [apply permute_Permutation|].
  split; [by rewrite permute_Permutation, fresh_ingredients_triple|].
  split; [done|]. split; [done|]. split; [done|].
  intros Hnd v Hv. by apply choice_uniform.
Qed.

(** No graph [generate_graph] built holds a class: whatever node is
    drawn, [generate_potion] raises. *)
Lemma generate_potion_generated potions w g w' w2 :
  Sorcerer.generate_graph potions w = (inr g, w') →
  ∃ e, (Sorcerer.generate_potion g w2).1 = inl e ∧ (e = TypeError ∨ e = IndexError).
Proof.
  intros (P & ps & reqs & -> & HP & Hmem & _ & _ & Hg & Hnodes & _)%generate_graph_returns.
  unfold Sorcerer.generate_potion. destruct (decide (nodes g = [])) as [Hnil|Hne].
  { rewrite Hnil. exists IndexError. split; [done|by right]. }
  erewrite bind_inr by (by apply (choice_nonempty _ VNone)).
  destruct (nodes g !! (tape w2 0 mod length (nodes g))%nat) as [v|] eqn:Hv; cbn [default].
  - apply list_elem_of_lookup_2 in Hv. rewrite Hnodes in Hv.
    apply elem_of_app in Hv as [(p & -> & _)%Hmem%list_elem_of_fmap|(i & -> & _)%list_elem_of_fmap];
      exists TypeError; (split; [done|by left]).
  - exists TypeError. split; [done|by left].
Qed.

(** C3, on the code: no potion is generated. For every graph
    [generate_graph] built from at least one potion, and every store,
    the graph holds no potion class; the node [generate_potion] draws
    is a potion instance or an ingredient instance, and calling it
    raises [TypeError]. No potion is made, nothing is brewed or
    printed, and the store differs only by the draw. *)
Theorem generate_potion_raises
    (potions : list value) (w : world) (g : DiGraph) (w' w2 : world) :
  potions ≠ [] → Sorcerer.generate_graph potions w = (inr g, w') →
  Sorcerer.generate_potion g w2 = (inl TypeError, with_rng (tail (rng w2)) w2) ∧
  (∀ c, VClass c ∉ nodes g) ∧
  (∃ v, nodes g !! (tape w2 0 mod length (nodes g))%nat = Some v ∧
        ((∃ p, v = VPotion p) ∨ ∃ i, v = VIngredient i)) ∧
  active_instances (Sorcerer.generate_potion g w2).2 = active_instances w2.
Proof.
  intros Hne (P & ps & reqs & -> & HP & Hmem & _ & _ & Hg & Hnodes & _)%generate_graph_returns.
  assert (∀ v, v ∈ nodes g → (∃ p, v = VPotion p) ∨ ∃ i, v = VIngredient i) as Hkind.
  { intros v. rewrite Hnodes.
    intros [(p & -> & _)%Hmem%list_elem_of_fmap|(i & -> & _)%list_elem_of_fmap]%elem_of_app;
      [left; by exists p|right; by exists i]. }
  assert (nodes g ≠ []) as Hnonempty.
  { destruct ps as [|p ps]; [done|]. intros Hnil.
    assert (VPotion p ∈ P) as Hp by (apply Hmem; left).
    rewrite Hnodes in Hnil. apply app_eq_nil in Hnil as [-> _]. by apply elem_of_nil in Hp. }
  assert (is_Some (nodes g !! (tape w2 0 mod length (nodes g))%nat)) as [v Hv].
  { apply lookup_lt_is_Some_2, Nat.mod_upper_bound. by destruct (nodes g). }
  assert (Sorcerer.generate_potion g w2 = (inl TypeError, with_rng (tail (rng w2)) w2)) as Hrun.
  { unfold Sorcerer.generate_potion.
    erewrite bind_inr by (by apply (choice_nonempty _ VNone)). rewrite Hv. cbn [default].
    destruct (Hkind v) as [[p ->]|[i ->]]; [by eapply list_elem_of_lookup_2|done|done]. }
  split; [done|]. split.
  { intros c Hc. by destruct (Hkind _ Hc) as [[p [=]]|[i [=]]]. }
  split.
  { exists v. split; [done|]. apply Hkind. by eapply list_elem_of_lookup_2. }
  by rewrite Hrun.
Qed.

(** On the graph built from the program's three potions every draw
    raises, whether it picks a potion instance or an ingredient
    instance. On the graph the program means to build, a draw can pick
    an ingredient node just as well as a class, and a class drawn
    returns the potion alone. *)
Example generate_potion_raises_on_generated_graph :
  (Sorcerer.generate_graph (VPotion <$> active_instances three_potions) three_potions).1
  = inr three_potions_graph ∧
  (Sorcerer.generate_potion three_potions_graph (initial [0%nat] [])).1 = inl TypeError ∧
  (Sorcerer.generate_potion three_potions_graph (initial [5%nat] [])).1 = inl TypeError ∧
  (Sorcerer.generate_potion intended_graph (initial [5%nat] [])).1 = inl TypeError ∧
  (Sorcerer.generate_potion intended_graph (initial [1%nat; 7%nat] [])).1
  = inr (VPotion (mkPotion 0 InvisibilityPotion)).
Proof. by vm_compute. Qed.

(** * The claims at the program's three potions *)

Lemma three_potions_graph_generated :
  Sorcerer.generate_graph (VPotion <$> active_instances three_potions) three_potions
  = (inr three_potions_graph, three_potions_after).
Proof. by vm_compute. Qed.

Lemma three_potions_nonempty : VPotion <$> active_instances three_potions ≠ [].
Proof. by vm_compute. Qed.

(** C1 at the three potions: the pass raises from an empty inventory. *)
Lemma optimize_potions_raises_witness :
  sorcerer_inventory (initial [] []) = ∅ ∧
  (Sorcerer.optimize_potions three_potions_graph (initial [] [])).1 = inl TypeError.
Proof.
  split; [reflexivity|].
  apply (optimize_potions_raises (VPotion <$> active_instances three_potions) three_potions
           three_potions_graph three_potions_after (initial [] [])).
  - apply three_potions_nonempty.
  - apply three_potions_graph_generated.
Defined.

(** C2 at the three potions. *)
Lemma optimize_potions_returns_nothing_witness :
  Sorcerer.optimize_potions three_potions_graph three_potions
  = (inl TypeError, with_herbs_used Sorcerer.reset_budget three_potions) ∧
  sorcerer_inventory (Sorcerer.optimize_potions three_potions_graph three_potions).2
  = sorcerer_inventory three_potions ∧
  botanist_inventory (Sorcerer.optimize_potions three_potions_graph three_potions).2
  = botanist_inventory three_potions.
Proof.
  apply (optimize_potions_returns_nothing (VPotion <$> active_instances three_potions)
           three_potions three_potions_graph three_potions_after three_potions).
  - apply three_potions_nonempty.
  - apply three_potions_graph_generated.
Defined.

(** C3 at the three potions: the draw picks the third ingredient node of
    the healing potion, and the call raises. *)
Lemma generate_potion_raises_witness :
  (∃ i, nodes three_potions_graph !! 5%nat = Some (VIngredient i)) ∧
  Sorcerer.generate_potion three_potions_graph (initial [5%nat] [])
  = (inl TypeError, initial [] []).
Proof.
  split; [vm_compute; by eexists|].
  destruct (generate_potion_raises (VPotion <$> active_instances three_potions) three_potions
              three_potions_graph three_potions_after (initial [5%nat] []))
    as (Hrun & _).
  - apply three_potions_nonempty.
  - apply three_potions_graph_generated.
  - exact Hrun.
Defined.

(** On the graph the program means to build, the draw picking the
    invisibility potion. *)
Example generate_potion_on_intended_graph :
  nodes intended_graph !! 1%nat = Some (VClass InvisibilityPotion) ∧
  ∃ w',
    Sorcerer.generate_potion intended_graph (initial [1; 7]%nat [])
    = (inr (VPotion (mkPotion 0 InvisibilityPotion)), w') ∧
    extra_powers w' !! 0%nat = Some 7.
Proof.
  split; [reflexivity|].
  destruct (generate_potion_returns_potion intended_graph (initial [1; 7]%nat [])
              InvisibilityPotion) as (w' & ingredients & Hrun & _ & Hextra & _).
  - reflexivity.
  - exists w'. split; [exact Hrun | exact Hextra].
Qed.

(** C4 at the three potions. *)
Lemma generate_graph_nodes_and_edges_witness :
  ∃ (ps : list Potion) (reqs : list (list Ingredient)),
    VPotion <$> active_instances three_potions = VPotion <$> ps ∧
    Forall2 (λ p l, triple <$> l ≡ₚ recipe (potion_class p)) ps reqs ∧
    NoDup (nodes three_potions_graph) ∧
    requirement_nodes three_potions_graph = VIngredient <$> concat reqs ∧
    edges three_potions_graph = requirement_edges ps reqs ∧
    (edges three_potions_graph).*2 = requirement_nodes three_potions_graph.
Proof.
  destruct (generate_graph_nodes_and_edges (VPotion <$> active_instances three_potions)
              three_potions three_potions_graph three_potions_after three_potions_graph_generated)
    as (ps & reqs & Hps & Hreqs & Hnd & _ & _ & Hnodes & _ & _ & Hedges & Htargets).
  exists ps, reqs. repeat split; assumption.
Defined.


(** The sorted list of the three potions' graph: the potions, then the
    ingredients of each. *)
Example topological_sort_three_potions :
  topological_sort three_potions_graph = inr (nodes three_potions_graph) ∧
  length (nodes three_potions_graph) = 12%nat.
Proof. by vm_compute. Qed.

(** * The extra powers of a potion *)

Lemma get_extra_powers_unfold p w :
  get_extra_powers p w
  = (match extra_powers w !! potion_id p with
     | Some v => inr (v + power_bonus (potion_class p))
     | None => inl AttributeError
     end, w).
Proof.
  unfold get_extra_powers, bind, gets. cbn.
  destruct (extra_powers w !! potion_id p) as [v|]; [|done].
  unfold ret, power_bonus. f_equal. f_equal. destruct (potion_class p); lia.
Qed.

(** X1. A potion reports the extra powers its last brew drew, a
    strength potion 10 more; a potion that was never brewed reports 0,
    a strength potion 10. Reading the extra powers changes nothing. *)
Theorem brew_sets_reported_powers (p : Potion) (c : PotionClass) (w : world) :
  get_extra_powers p (brew p w).2
  = (inr (Z.of_nat (tape w 0) + power_bonus (potion_class p)), (brew p w).2) ∧
  get_extra_powers (mkPotion (next_id w) c) (new_potion c w).2
  = (inr (power_bonus c), (new_potion c w).2) ∧
  power_bonus StrengthPotion = 10 ∧
  power_bonus HealingPotion = 0 ∧
  power_bonus InvisibilityPotion = 0 ∧
  (get_extra_powers p w).2 = w.
Proof.
  split; [|split; [|split; [done|split; [done|split; [done|]]]]].
  - rewrite get_extra_powers_unfold, brew_unfold.
    cbn [snd extra_powers with_layout with_next_id with_extra_powers].
    by rewrite lookup_insert_eq, tape_0.
  - rewrite get_extra_powers_unfold, new_potion_unfold.
    cbn [snd extra_powers with_extra_powers potion_id potion_class].
    by rewrite lookup_insert_eq.
  - by rewrite get_extra_powers_unfold.
Qed.

(** X2. Setting the extra powers of a potion and reading them back gives
    the value set (10 more for a strength potion), and leaves what every
    other potion reports as it was; so does brewing. *)
Theorem set_extra_powers_other_potion (p q : Potion) (v : Z) (w : world) :
  potion_id p ≠ potion_id q →
  (get_extra_powers p (set_extra_powers p v w).2).1 = inr (v + power_bonus (potion_class p)) ∧
  (get_extra_powers q (set_extra_powers p v w).2).1 = (get_extra_powers q w).1 ∧
  (get_extra_powers q (brew p w).2).1 = (get_extra_powers q w).1.
Proof.
  intros Hne. rewrite !get_extra_powers_unfold, brew_unfold.
  cbn [fst snd set_extra_powers modify extra_powers with_layout with_next_id with_extra_powers].
  by rewrite lookup_insert_eq, !lookup_insert_ne.
Qed.

Lemma set_extra_powers_other_potion_witness :
  let w := (new_potion StrengthPotion (new_potion HealingPotion (initial [] [])).2).2 in
  let p := mkPotion 0 HealingPotion in
  let q := mkPotion 1 StrengthPotion in
  (get_extra_powers p (set_extra_powers p 4 w).2).1 = inr 4 ∧
  (get_extra_powers q (set_extra_powers p 4 w).2).1 = inr 10 ∧
  (get_extra_powers q (brew p w).2).1 = inr 10.
Proof.
  intros w p q.
  destruct (set_extra_powers_other_potion p q 4 w) as (H1 & H2 & H3); [by vm_compute|].
  split; [exact H1|]. split; [by rewrite H2|by rewrite H3].
Defined.

(** * What the operations only add to *)

Global Instance active_instances_grow_preorder : PreOrder active_instances_grow.
Proof.
  split.
  - intros w. unfold active_instances_grow. done.
  - intros w1 w2 w3. unfold active_instances_grow. by etrans.
Qed.

Global Instance next_id_grows_preorder : PreOrder next_id_grows.
Proof. split; [intros w|intros w1 w2 w3]; unfold next_id_grows; lia. Qed.

Global Instance active_instances_grow_grows : Grows active_instances_grow.
Proof.
  split; [apply _|..]; intros; unfold active_instances_grow; cbn; try done.
  by apply prefix_app_r.
Qed.

Global Instance next_id_grows_grows : Grows next_id_grows.
Proof. split; [apply _|..]; intros; unfold next_id_grows; cbn; lia. Qed.

Global Instance same_botanist_inventory_grows : Grows same_botanist_inventory.
Proof. split; [apply _|..]; intros; unfold same_botanist_inventory; reflexivity. Qed.

Section Growing.
Context (R : relation world) `{!Grows R}.

Local Ltac leaf :=
  intros ?; unfold alloc, draw, set_of, print, modify; cbn;
  first [ apply grows_next_id | apply grows_active_instances
        | apply grows_extra_powers | apply grows_rng
        | apply grows_layout | apply grows_stdout
        | apply grows_herbs_used | apply grows_sorcerer_inventory ].

Lemma grows_alloc : keeps R alloc.
Proof. leaf. Qed.

Lemma grows_draw : keeps R draw.
Proof. leaf. Qed.

Lemma grows_set_of {A} (l : list A) : keeps R (set_of l).
Proof. leaf. Qed.

Lemma grows_print l : keeps R (print l).
Proof. leaf. Qed.

Lemma grows_choice {X} (l : list X) : keeps R (choice l).
Proof.
  unfold choice. destruct l; [keeps_step|].
  repeat keeps_step; apply grows_draw.
Qed.

Lemma grows_randint a b : keeps R (randint a b).
Proof. unfold randint. repeat keeps_step. apply grows_draw. Qed.

Lemma grows_new_potion c : keeps R (new_potion c).
Proof. unfold new_potion. repeat keeps_step; try apply grows_alloc; leaf. Qed.

Lemma grows_new_ingredient c q ql : keeps R (new_ingredient c q ql).
Proof. unfold new_ingredient. repeat keeps_step. apply grows_alloc. Qed.

Lemma grows_brew p : keeps R (brew p).
Proof.
  unfold brew, poissonvariate, set_extra_powers. repeat keeps_step;
    first [ apply grows_print | apply grows_draw | apply grows_new_ingredient
          | apply grows_set_of | leaf ].
Qed.

Lemma grows_call v : keeps R (call v).
Proof. unfold call. repeat keeps_step. apply grows_new_potion. Qed.

Lemma grows_call_brew v : keeps R (call_brew v).
Proof. unfold call_brew. destruct v; repeat keeps_step. apply grows_brew. Qed.

Lemma grows_generate_potion g : keeps R (Sorcerer.generate_potion g).
Proof.
  unfold Sorcerer.generate_potion. repeat keeps_step;
    first [ apply grows_choice | apply grows_call | apply grows_call_brew | apply grows_print ].
Qed.

Lemma grows_generate_graph potions : keeps R (Sorcerer.generate_graph potions).
Proof.
  unfold Sorcerer.generate_graph, Sorcerer.brew_into. repeat keeps_step.
  apply grows_call_brew.
Qed.

Lemma grows_consume_one node : keeps R (Sorcerer.consume_one node).
Proof.
  unfold Sorcerer.consume_one, as_ingredient. repeat keeps_step; leaf.
Qed.

Lemma grows_consume_ingredient v g : keeps R (Sorcerer.consume_ingredient v g).
Proof.
  unfold Sorcerer.consume_ingredient. repeat keeps_step. apply grows_consume_one.
Qed.

Lemma grows_optimize_potions g : keeps R (Sorcerer.optimize_potions g).
Proof.
  unfold Sorcerer.optimize_potions, Sorcerer.optimize_one. repeat keeps_step;
    first [ apply grows_call | apply grows_consume_ingredient | leaf ].
Qed.

Lemma grows_sorcerer_init : keeps R Sorcerer.init.
Proof. unfold Sorcerer.init. leaf. Qed.

(** The operations that do not belong to the botanist. *)
Lemma grows_run op w : is_botanist_op op = false → R w (run op w).
Proof.
  destruct op; cbn [is_botanist_op run]; try done; intros _.
  - apply grows_new_potion.
  - apply grows_new_ingredient.
  - apply grows_brew.
  - apply grows_sorcerer_init.
  - apply grows_generate_potion.
  - apply grows_generate_graph.
  - apply grows_optimize_potions.
  - apply grows_consume_ingredient.
Qed.

(** The botanist's operations, for a relation that a change of the
    botanist's inventory does not affect. *)
Context (R_botanist : ∀ m k w, R w (with_botanist_keys k (with_botanist_inventory m w))).

Lemma grows_add_ingredient i : keeps R (Botanist.add_ingredient i).
Proof. intros w. rewrite add_ingredient_unfold. apply R_botanist. Qed.

Lemma grows_remove_ingredient i : keeps R (Botanist.remove_ingredient i).
Proof.
  intros w. rewrite remove_ingredient_unfold.
  destruct (list_remove _ _); [done|]. exact (R_botanist _ (botanist_keys w) w).
Qed.

Lemma grows_generate_ingredient : keeps R Botanist.generate_ingredient.
Proof.
  unfold Botanist.generate_ingredient. repeat keeps_step;
    first [ apply grows_choice | apply grows_randint | apply grows_new_ingredient
          | apply grows_add_ingredient | apply grows_print ].
Qed.

Lemma grows_show_inventory : keeps R Botanist.show_inventory.
Proof. unfold Botanist.show_inventory. repeat keeps_step; apply grows_print. Qed.

Lemma grows_run_any op w : R w (run op w).
Proof.
  destruct (is_botanist_op op) eqn:Hop; [|by apply grows_run].
  destruct op; cbn [is_botanist_op run] in *; try done.
  - apply R_botanist.
  - apply grows_add_ingredient.
  - apply grows_remove_ingredient.
  - apply grows_generate_ingredient.
  - apply grows_show_inventory.
Qed.

Lemma grows_run_all ops w : R w (run_all ops w).
Proof.
  revert w. induction ops as [|op ops IH]; intros w; [done|].
  cbn. etrans; [apply grows_run_any|apply IH].
Qed.
End Growing.

Lemma run_all_app ops1 ops2 w : run_all (ops1 ++ ops2) w = run_all ops2 (run_all ops1 w).
Proof. unfold run_all. by rewrite foldl_app. Qed.

(** X3. No operation ever removes or reorders a potion of
    [MagickalPotion.active_instances]: the list an operation leaves
    starts with the list it found, also when the operation raises.
    Making a potion appends this one potion, under the next identity;
    the next identity never goes down, and every potion made raises it. *)
Theorem active_instances_only_grow (ops : list operation) (c : PotionClass) (w : world) :
  active_instances w `prefix_of` active_instances (run_all ops w) ∧
  active_instances (run (OpNewPotion c) (run_all ops w))
  = active_instances (run_all ops w) ++ [mkPotion (next_id (run_all ops w)) c] ∧
  (next_id w ≤ next_id (run_all ops w))%nat ∧
  (next_id (run_all ops w) < next_id (run (OpNewPotion c) (run_all ops w)))%nat.
Proof.
  split.
  { apply (grows_run_all active_instances_grow). intros m k w0. by unfold active_instances_grow. }
  split; [done|]. split.
  { apply (grows_run_all next_id_grows). intros m k w0. by unfold next_id_grows. }
  cbn. lia.
Qed.

(** * Adding to and removing from the botanist's inventory *)

Lemma list_remove_app_new x l : x ∉ l → list_remove x (l ++ [x]) = inr l.
Proof.
  induction l as [|y l IH]; intros Hx; cbn [app list_remove].
  - by rewrite decide_True.
  - apply not_elem_of_cons in Hx as [Hne Hx].
    rewrite decide_False by congruence. by rewrite (IH Hx).
Qed.

Lemma list_remove_perm x l l' : list_remove x l = inr l' → l ≡ₚ x :: l'.
Proof.
  revert l'. induction l as [|y l IH]; intros l'; cbn [list_remove]; [done|].
  destruct (decide (y = x)) as [->|Hne].
  - by intros [= <-].
  - destruct (list_remove x l) as [e|r]; [done|]. intros [= <-].
    rewrite (IH r eq_refl). apply Permutation_swap.
Qed.

Lemma list_remove_nodup x l l' : NoDup l → list_remove x l = inr l' → NoDup l' ∧ x ∉ l'.
Proof.
  intros Hnd Hrem. apply list_remove_perm in Hrem. rewrite Hrem in Hnd.
  by apply NoDup_cons in Hnd as [? ?].
Qed.

Lemma stock_lookup inv name l : inv !! name = Some l → stock inv name = l.
Proof. intros H. unfold stock. by rewrite H. Qed.

(** X4. Adding an instance the inventory does not hold and removing it
    again gives every stock back as it was, and changes nothing else in
    the store; but the name of the instance stays in the inventory,
    as its last key and with an empty stock if it was not there before:
    [remove_ingredient] never takes a name out. *)
Theorem add_then_remove_restores_stock (i : Ingredient) (w : world) :
  i ∉ stock (botanist_inventory w) (get_name i) →
  Botanist.remove_ingredient i (Botanist.add_ingredient i w).2
  = (inr tt,
     with_botanist_keys (keys_with (get_name i) w)
       (with_botanist_inventory
          (<[get_name i := stock (botanist_inventory w) (get_name i)]> (botanist_inventory w))
          w)) ∧
  (∀ name,
     stock (botanist_inventory
              (Botanist.remove_ingredient i (Botanist.add_ingredient i w).2).2) name
     = stock (botanist_inventory w) name) ∧
  (botanist_inventory w !! get_name i = None →
   botanist_inventory (Botanist.remove_ingredient i (Botanist.add_ingredient i w).2).2
     !! get_name i = Some []).
Proof.
  intros Hout.
  assert (Botanist.remove_ingredient i (Botanist.add_ingredient i w).2
          = (inr tt,
             with_botanist_keys (keys_with (get_name i) w)
               (with_botanist_inventory
                  (<[get_name i := stock (botanist_inventory w) (get_name i)]>
                     (botanist_inventory w)) w))) as Hrun.
  { rewrite add_ingredient_unfold. cbn [snd]. rewrite remove_ingredient_unfold.
    cbn [botanist_inventory with_botanist_inventory with_botanist_keys].
    rewrite stock_insert, (list_remove_app_new _ _ Hout).
    unfold with_botanist_keys, with_botanist_inventory; cbn.
    by rewrite insert_insert_eq. }
  rewrite Hrun. cbn [snd botanist_inventory with_botanist_inventory with_botanist_keys].
  split; [done|]. split.
  - intros name. destruct (decide (get_name i = name)) as [<-|Hne].
    + by rewrite stock_insert.
    + by rewrite stock_insert_ne.
  - intros Hnone. rewrite lookup_insert_eq. unfold stock. by rewrite Hnone.
Qed.

Lemma add_then_remove_restores_stock_witness :
  let h := mkIngredient 0 Herb 1 "normal" in
  let w := initial [] [] in
  botanist_inventory w = ∅ ∧
  botanist_inventory (Botanist.remove_ingredient h (Botanist.add_ingredient h w).2).2
  = <["Herb" := []]> ∅.
Proof.
  intros h w. split; [reflexivity|].
  destruct (add_then_remove_restores_stock h w) as (Hrun & _ & _).
  - vm_compute. apply not_elem_of_nil.
  - rewrite Hrun. reflexivity.
Defined.

(** An instance that is held already: the removal takes the older
    occurrence, so the stock comes back in another order. *)
Example add_then_remove_reorders :
  let h := mkIngredient 0 Herb 1 "normal" in
  let k := mkIngredient 1 Herb 2 "premium" in
  let w := run_all [OpAddIngredient h; OpAddIngredient k] (initial [] []) in
  stock (botanist_inventory w) "Herb" = [h; k] ∧
  stock (botanist_inventory (run_all [OpAddIngredient h; OpRemoveIngredient h] w)) "Herb"
  = [k; h].
Proof. by vm_compute. Qed.

(** * The names of the inventory *)

Lemma get_name_class i : get_name i ∈ ["Herb"; "Mushroom"; "Root"].
Proof. unfold get_name. destruct (ing_class i); set_solver. Qed.

Lemma by_name_insert inv name l :
  by_name inv → name ∈ ["Herb"; "Mushroom"; "Root"] → (∀ i, i ∈ l → get_name i = name) →
  by_name (<[name := l]> inv).
Proof.
  intros Hinv Hname Hl name' l'. destruct (decide (name = name')) as [<-|Hne].
  - rewrite lookup_insert_eq. by intros [= <-].
  - rewrite lookup_insert_ne by done. apply Hinv.
Qed.

Lemma by_name_stock inv name i : by_name inv → i ∈ stock inv name → get_name i = name.
Proof.
  intros Hinv. unfold stock. destruct (inv !! name) as [l|] eqn:Hl; cbn.
  - by apply (Hinv name l Hl).
  - by intros ?%elem_of_nil.
Qed.

Lemma run_other_botanist_inventory op w :
  is_botanist_op op = false → botanist_inventory (run op w) = botanist_inventory w.
Proof. apply (grows_run same_botanist_inventory). Qed.

Lemma run_botanist_inventory_cases op w :
  botanist_inventory (run op w) = botanist_inventory w ∨
  op = OpBotanistInit ∧ botanist_inventory (run op w) = ∅ ∨
  (∃ i l', op = OpRemoveIngredient i ∧
           list_remove i (stock (botanist_inventory w) (get_name i)) = inr l' ∧
           botanist_inventory (run op w) = <[get_name i := l']> (botanist_inventory w)) ∨
  (∃ i, (op = OpAddIngredient i ∨
         op = OpGenerateIngredient ∧ ing_id i = next_id w ∧ next_id (run op w) = S (next_id w)) ∧
        botanist_inventory (run op w)
        = <[get_name i := stock (botanist_inventory w) (get_name i) ++ [i]]>
            (botanist_inventory w)).
Proof.
  destruct (is_botanist_op op) eqn:Hop; [|left; by apply run_other_botanist_inventory].
  destruct op; cbn [is_botanist_op run] in *; try done.
  - right. left. done.
  - right. right. right. exists i. rewrite add_ingredient_unfold. split; [by left|done].
  - rewrite remove_ingredient_unfold.
    destruct (list_remove i _) as [e|l'] eqn:Hl'; [by left|].
    right. right. left. by exists i, l'.
  - right. right. right. rewrite generate_ingredient_unfold.
    exists (drawn_ingredient (next_id w) (tape w 0) (tape w 1) (tape w 2)).
    split; [right|]; done.
  - left. apply (grows_show_inventory same_botanist_inventory).
Qed.

Lemma by_name_run op w :
  by_name (botanist_inventory w) → by_name (botanist_inventory (run op w)).
Proof.
  intros Hinv.
  destruct (run_botanist_inventory_cases op w)
    as [->|[[_ ->]|[(i & l' & _ & Hl' & ->)|(i & _ & ->)]]]; [done|..].
  - intros name l. by rewrite lookup_empty.
  - apply by_name_insert; [done|apply get_name_class|].
    intros j Hj. apply (by_name_stock _ _ _ Hinv).
    apply list_remove_sublist in Hl'. by eapply elem_of_sublist.
  - apply by_name_insert; [done|apply get_name_class|].
    intros j [Hj| ->%list_elem_of_singleton]%elem_of_app; [|done].
    by apply (by_name_stock _ _ _ Hinv).
Qed.

(** X5. Whatever the program does after the botanist is made, the
    inventory holds no name but Herb, Mushroom and Root, and the stock
    under a name holds only instances of the class of that name. *)
Theorem inventory_is_kept_by_name (ops : list operation) (w : world) :
  by_name (botanist_inventory (run_all ops (run OpBotanistInit w))) ∧
  dom (botanist_inventory (run_all ops (run OpBotanistInit w)))
  ⊆ ({["Herb"; "Mushroom"; "Root"]} : gset string).
Proof.
  assert (by_name (botanist_inventory (run_all ops (run OpBotanistInit w)))) as Hinv.
  { assert (by_name (botanist_inventory (run OpBotanistInit w))) as H0.
    { intros name l. cbn. by rewrite lookup_empty. }
    revert H0. generalize (run OpBotanistInit w). clear w.
    induction ops as [|op ops IH]; intros w Hw; [done|].
    cbn. apply IH. by apply by_name_run. }
  split; [done|].
  intros name [l Hl]%elem_of_dom. destruct (Hinv name l Hl) as [Hname _].
  rewrite !elem_of_cons, elem_of_nil in Hname.
  rewrite !elem_of_union, !elem_of_singleton. tauto.
Qed.

(** * The report of the inventory *)

Global Instance same_botanist_keys_preorder : PreOrder same_botanist_keys.
Proof.
  split; [by intros w|]. intros w1 w2 w3. unfold same_botanist_keys. congruence.
Qed.

Global Instance same_botanist_keys_grows : Grows same_botanist_keys.
Proof. split; [apply _|..]; intros; unfold same_botanist_keys; reflexivity. Qed.

Lemma show_inventory_unfold w :
  Botanist.show_inventory w
  = (inr tt, with_stdout (stdout w ++ Text "Inventory:" :: report w) w).
Proof.
  unfold Botanist.show_inventory.
  erewrite bind_inr by reflexivity. erewrite bind_inr by reflexivity.
  erewrite bind_inr by reflexivity.
  rewrite for_each_print. unfold report, with_stdout; cbn. by rewrite <- app_assoc.
Qed.

(** ** The items of a dictionary *)

Lemma elem_of_items {A} (keys : list string) (d : gmap string A) k v :
  (k, v) ∈ items keys d ↔ k ∈ keys ∧ d !! k = Some v.
Proof.
  unfold items. rewrite list_elem_of_omap. split.
  - intros (k' & Hk' & Hv). destruct (d !! k') as [v'|] eqn:Hd; [|done].
    cbn in Hv. by simplify_eq.
  - intros [Hk Hv]. exists k. split; [done|]. by rewrite Hv.
Qed.

Lemma items_keys {A} (keys : list string) (d : gmap string A) :
  (items keys d).*1 = filter (λ k, is_Some (d !! k)) keys.
Proof.
  unfold items. induction keys as [|k keys IH]; [done|].
  cbn [omap list_omap]. rewrite filter_cons.
  destruct (d !! k) as [v|] eqn:Hk; cbn [fmap option_fmap option_map].
  - rewrite decide_True by done. cbn. f_equal. apply IH.
  - rewrite decide_False by (by intros [? ?]). apply IH.
Qed.

Lemma report_lines (keys : list string) (inv : gmap string (list Ingredient)) :
  (∀ k, k ∈ keys → is_Some (inv !! k)) →
  (λ entry : string * list Ingredient, InventoryLine entry.1 (length entry.2))
    <$> items keys inv
  = (λ name, InventoryLine name (count inv name)) <$> keys.
Proof.
  unfold items, count, stock. induction keys as [|k keys IH]; intros Hkeys; [done|].
  cbn [omap list_omap]. destruct (Hkeys k ltac:(left)) as [l Hl]. rewrite Hl. cbn.
  rewrite Hl. cbn. f_equal. apply IH. intros k' Hk'. apply Hkeys. by right.
Qed.

(** When the key order lists each key once, [items] has every entry of
    the dictionary once. *)
Lemma items_map_to_list {A} (keys : list string) (d : gmap string A) :
  NoDup keys → (∀ k, k ∈ keys ↔ is_Some (d !! k)) → items keys d ≡ₚ map_to_list d.
Proof.
  intros Hnd Hkeys. apply NoDup_Permutation.
  - apply (NoDup_fmap_1 fst). rewrite items_keys. by apply NoDup_filter.
  - apply NoDup_map_to_list.
  - intros [k v]. rewrite elem_of_items, elem_of_map_to_list. split; [by intros [_ ?]|].
    intros Hv. split; [|done]. apply Hkeys. by exists v.
Qed.

(** ** The key order under the operations *)

Lemma keys_with_elem name w :
  dict_ok w →
  keys_with name w
  = if decide (name ∈ botanist_keys w) then botanist_keys w else botanist_keys w ++ [name].
Proof.
  intros [_ Hkeys]. unfold keys_with.
  destruct (botanist_inventory w !! name) as [l|] eqn:Hl.
  - rewrite decide_True; [done|]. apply Hkeys. by exists l.
  - rewrite decide_False; [done|]. intros [l' Hl']%Hkeys. by rewrite Hl in Hl'.
Qed.

(** What an operation does to the dictionary: nothing; or it is a new
    one; or an instance left a stock; or an instance joined a stock,
    under a key that is the last one if it is new. *)
Lemma run_botanist_dict_cases op w :
  (botanist_inventory (run op w) = botanist_inventory w ∧
   botanist_keys (run op w) = botanist_keys w) ∨
  (op = OpBotanistInit ∧ botanist_inventory (run op w) = ∅ ∧ botanist_keys (run op w) = []) ∨
  (∃ i l l', botanist_inventory w !! get_name i = Some l ∧ list_remove i l = inr l' ∧
             botanist_inventory (run op w) = <[get_name i := l']> (botanist_inventory w) ∧
             botanist_keys (run op w) = botanist_keys w) ∨
  (∃ i, botanist_inventory (run op w)
        = <[get_name i := stock (botanist_inventory w) (get_name i) ++ [i]]>
            (botanist_inventory w) ∧
        botanist_keys (run op w) = keys_with (get_name i) w).
Proof.
  destruct (is_botanist_op op) eqn:Hop.
  - destruct op; cbn [is_botanist_op run] in *; try done.
    + right. left. done.
    + right. right. right. exists i. by rewrite add_ingredient_unfold.
    + rewrite remove_ingredient_unfold.
      destruct (botanist_inventory w !! get_name i) as [l|] eqn:Hl.
      * rewrite (stock_lookup _ _ _ Hl).
        destruct (list_remove i l) as [e|l'] eqn:Hl'; [by left|].
        right. right. left. by exists i, l, l'.
      * unfold stock. rewrite Hl. by left.
    + right. right. right. rewrite generate_ingredient_unfold.
      by exists (drawn_ingredient (next_id w) (tape w 0) (tape w 1) (tape w 2)).
    + left. by rewrite show_inventory_unfold.
  - left. split.
    + by apply (grows_run same_botanist_inventory).
    + by apply (grows_run same_botanist_keys).
Qed.

Lemma dict_ok_run op w : dict_ok w → dict_ok (run op w).
Proof.
  intros Hw. pose proof Hw as [Hnd Hkeys].
  destruct (run_botanist_dict_cases op w)
    as [[Hinv Hk]|[(_ & Hinv & Hk)|[(i & l & l' & Hl & _ & Hinv & Hk)|(i & Hinv & Hk)]]];
    unfold dict_ok; rewrite Hinv, Hk.
  - done.
  - split; [constructor|]. intros name. rewrite lookup_empty. split.
    + by intros ?%elem_of_nil.
    + by intros [? ?].
  - split; [done|]. intros name. rewrite Hkeys.
    destruct (decide (get_name i = name)) as [<-|Hne].
    + rewrite lookup_insert_eq, Hl. by split.
    + by rewrite lookup_insert_ne.
  - rewrite (keys_with_elem _ _ Hw).
    destruct (decide (get_name i ∈ botanist_keys w)) as [Hin|Hout].
    + split; [done|]. intros name. rewrite Hkeys.
      destruct (decide (get_name i = name)) as [<-|Hne].
      * rewrite lookup_insert_eq. split; [done|]. intros _. by apply Hkeys.
      * by rewrite lookup_insert_ne.
    + split.
      * apply NoDup_app. split; [done|]. split; [|apply NoDup_singleton].
        by intros name Hname ->%list_elem_of_singleton.
      * intros name. rewrite elem_of_app, list_elem_of_singleton, Hkeys.
        destruct (decide (get_name i = name)) as [<-|Hne].
        -- rewrite lookup_insert_eq. split; [done|]. intros _. by right.
        -- rewrite lookup_insert_ne by done. split; [|by left]. by intros [?|?].
Qed.

Lemma dict_ok_run_all ops w : dict_ok w → dict_ok (run_all ops w).
Proof.
  revert w. induction ops as [|op ops IH]; intros w Hw; [done|].
  cbn. apply IH. by apply dict_ok_run.
Qed.

Lemma dict_ok_init w : dict_ok (run OpBotanistInit w).
Proof.
  split; [constructor|]. intros name. cbn. rewrite lookup_empty. split.
  - by intros ?%elem_of_nil.
  - by intros [? ?].
Qed.

Lemma elem_of_report w name n :
  dict_ok w →
  InventoryLine name n ∈ report w ↔ ∃ l, botanist_inventory w !! name = Some l ∧ length l = n.
Proof.
  intros [_ Hkeys]. unfold report. rewrite list_elem_of_fmap. split.
  - intros ([name' l] & [= -> ->] & [_ Hl]%elem_of_items). by exists l.
  - intros (l & Hl & <-). exists (name, l). split; [done|].
    apply elem_of_items. split; [|done]. apply Hkeys. by exists l.
Qed.

(** X6. [show_inventory] prints the heading and then one line per key
    of the inventory, with the key and the number of instances under
    it, in the order in which the keys were inserted: the key order
    lists each key once, a name that [add_ingredient] finds missing
    goes to its end, and nothing but a new botanist takes a key out or
    moves one. A key whose stock is empty is listed too, with 0.
    [show_inventory] changes nothing but the output. *)
Theorem show_inventory_lists_keys_in_order (ops : list operation) (w : world) :
  let W := run_all ops (run OpBotanistInit w) in
  Botanist.show_inventory W
  = (inr tt, with_stdout (stdout W ++ Text "Inventory:" :: report W) W) ∧
  report W
  = (λ name, InventoryLine name (count (botanist_inventory W) name)) <$> botanist_keys W ∧
  NoDup (botanist_keys W) ∧
  (∀ name, name ∈ botanist_keys W ↔ is_Some (botanist_inventory W !! name)) ∧
  items (botanist_keys W) (botanist_inventory W) ≡ₚ map_to_list (botanist_inventory W) ∧
  length (report W) = size (botanist_inventory W) ∧
  (∀ name n,
     InventoryLine name n ∈ report W
     ↔ ∃ l, botanist_inventory W !! name = Some l ∧ length l = n) ∧
  (∀ name, botanist_inventory W !! name = Some [] → InventoryLine name 0 ∈ report W) ∧
  (∀ i, botanist_keys (run (OpAddIngredient i) W)
        = if decide (get_name i ∈ botanist_keys W) then botanist_keys W
          else botanist_keys W ++ [get_name i]) ∧
  (∀ op, op = OpBotanistInit ∨ botanist_keys W `prefix_of` botanist_keys (run op W)) ∧
  botanist_inventory (Botanist.show_inventory W).2 = botanist_inventory W ∧
  botanist_keys (Botanist.show_inventory W).2 = botanist_keys W.
Proof.
  intros W.
  assert (dict_ok W) as HW by apply dict_ok_run_all, dict_ok_init.
  pose proof HW as [Hnd Hkeys].
  pose proof (items_map_to_list _ _ Hnd Hkeys) as Hitems.
  split; [apply show_inventory_unfold|]. split.
  { apply report_lines. intros k Hk. by apply Hkeys. }
  split; [done|]. split; [done|]. split; [done|]. split.
  { unfold report. by rewrite length_fmap, Hitems, length_map_to_list. }
  split; [intros name n; by apply elem_of_report|]. split.
  { intros name Hname. apply elem_of_report; [done|]. by exists []. }
  split.
  { intros i. cbn [run]. rewrite add_ingredient_unfold. cbn [snd botanist_keys with_botanist_keys].
    by apply keys_with_elem. }
  split.
  { intros op.
    destruct (run_botanist_dict_cases op W)
      as [[_ Hk]|[(-> & _)|[(i & l & l' & _ & _ & _ & Hk)|(i & _ & Hk)]]];
      [right|by left|right|right]; rewrite Hk; [done|done|].
    unfold keys_with. destruct (botanist_inventory W !! get_name i); [done|].
    by apply prefix_app_r. }
  by rewrite show_inventory_unfold.
Qed.

(** The same three instances added in two orders, and the two reports. *)
Example show_inventory_two_orders :
  let h := mkIngredient 0 Herb 1 "normal" in
  let m := mkIngredient 1 Mushroom 2 "premium" in
  let r := mkIngredient 2 Root 3 "legendary" in
  stdout (run_all [OpBotanistInit; OpAddIngredient r; OpAddIngredient m; OpAddIngredient h;
                   OpAddIngredient r; OpShowInventory] (initial [] []))
  = [Text "Inventory:"; InventoryLine "Root" 2; InventoryLine "Mushroom" 1;
     InventoryLine "Herb" 1] ∧
  stdout (run_all [OpBotanistInit; OpAddIngredient h; OpAddIngredient m; OpAddIngredient r;
                   OpAddIngredient r; OpShowInventory] (initial [] []))
  = [Text "Inventory:"; InventoryLine "Herb" 1; InventoryLine "Mushroom" 1;
     InventoryLine "Root" 2].
Proof. by vm_compute. Qed.

(** The report after an instance was added and removed again. *)
Example show_inventory_empty_stock :
  let h := mkIngredient 0 Herb 1 "normal" in
  stdout (run_all [OpBotanistInit; OpAddIngredient h; OpRemoveIngredient h; OpShowInventory]
            (initial [] []))
  = [Text "Inventory:"; InventoryLine "Herb" 0].
Proof. by vm_compute. Qed.

(** * Inventories that hold every instance once *)

Lemma tidy_later w w' :
  tidy w → botanist_inventory w' = botanist_inventory w → (next_id w ≤ next_id w')%nat →
  tidy w'.
Proof.
  intros Hw Hinv Hid name l. rewrite Hinv. intros Hl.
  destruct (Hw name l Hl) as [Hnd Hold]. split; [done|].
  intros i Hi. apply Hold in Hi. lia.
Qed.

Lemma tidy_stock w name :
  tidy w → NoDup (stock (botanist_inventory w) name) ∧
           ∀ i, i ∈ stock (botanist_inventory w) name → (ing_id i < next_id w)%nat.
Proof.
  intros Hw. unfold stock. destruct (botanist_inventory w !! name) as [l|] eqn:Hl; cbn.
  - exact (Hw name l Hl).
  - split; [constructor|]. by intros i ?%elem_of_nil.
Qed.

Lemma next_id_run op w : (next_id w ≤ next_id (run op w))%nat.
Proof. apply (grows_run_any next_id_grows). intros m k w0. by unfold next_id_grows. Qed.

Lemma tidy_run op w : is_add op = false → tidy w → tidy (run op w).
Proof.
  intros Hop Hw. pose proof (next_id_run op w) as Hid.
  destruct (run_botanist_inventory_cases op w)
    as [Hinv|[[_ Hinv]|[(i & l' & _ & Hl' & Hinv)|(i & [->|(-> & Hi & Hnext)] & Hinv)]]].
  - by eapply tidy_later.
  - intros name l. rewrite Hinv. by rewrite lookup_empty.
  - destruct (tidy_stock w (get_name i) Hw) as [Hnd Hold].
    intros name l. rewrite Hinv. destruct (decide (get_name i = name)) as [<-|Hne].
    + rewrite lookup_insert_eq. intros [= <-].
      destruct (list_remove_nodup _ _ _ Hnd Hl') as [Hnd' _]. split; [done|].
      intros j Hj. apply list_remove_sublist in Hl'.
      assert (ing_id j < next_id w)%nat by (apply Hold; by eapply elem_of_sublist). lia.
    + rewrite lookup_insert_ne by done. intros Hl.
      destruct (Hw name l Hl) as [? Hold']. split; [done|].
      intros j Hj. apply Hold' in Hj. lia.
  - done.
  - destruct (tidy_stock w (get_name i) Hw) as [Hnd Hold].
    intros name l. rewrite Hinv. destruct (decide (get_name i = name)) as [<-|Hne].
    + rewrite lookup_insert_eq. intros [= <-]. split.
      * apply NoDup_app. split; [done|]. split; [|apply NoDup_singleton].
        intros j Hj ->%list_elem_of_singleton. apply Hold in Hj. lia.
      * intros j [Hj| ->%list_elem_of_singleton]%elem_of_app; [|lia].
        apply Hold in Hj. lia.
    + rewrite lookup_insert_ne by done. intros Hl.
      destruct (Hw name l Hl) as [? Hold']. split; [done|].
      intros j Hj. apply Hold' in Hj. lia.
Qed.

Lemma tidy_run_all ops w :
  forallb (λ op, negb (is_add op)) ops = true → tidy w → tidy (run_all ops w).
Proof.
  revert w. induction ops as [|op ops IH]; intros w; [done|].
  cbn [forallb]. intros [Hop Hops]%andb_prop Hw. cbn.
  apply IH; [done|]. apply tidy_run; [|done]. by destruct (is_add op).
Qed.

Lemma tidy_remove_twice i w :
  tidy w →
  Botanist.remove_ingredient i (Botanist.remove_ingredient i w).2
  = (inr tt, (Botanist.remove_ingredient i w).2).
Proof.
  intros Hw. destruct (tidy_stock w (get_name i) Hw) as [Hnd _].
  destruct (decide (i ∈ stock (botanist_inventory w) (get_name i))) as [Hin|Hout].
  - destruct (remove_ingredient_present i w Hin) as (l' & Hl' & ->). cbn [snd].
    apply remove_ingredient_absent.
    cbn [botanist_inventory with_botanist_inventory]. rewrite stock_insert.
    by destruct (list_remove_nodup _ _ _ Hnd Hl').
  - rewrite (remove_ingredient_absent i w Hout). cbn [snd].
    by apply remove_ingredient_absent.
Qed.

(** X7. An inventory that has been filled by [generate_ingredient]
    only, with whatever else the program did in between except
    [add_ingredient], holds no instance twice; there, removing an
    instance a second time changes nothing. *)
Theorem generated_inventory_holds_instances_once
    (ops : list operation) (i : Ingredient) (w : world) :
  forallb (λ op, negb (is_add op)) ops = true →
  (∀ name, NoDup (stock (botanist_inventory (run_all ops (run OpBotanistInit w))) name)) ∧
  Botanist.remove_ingredient i
    (Botanist.remove_ingredient i (run_all ops (run OpBotanistInit w))).2
  = (inr tt, (Botanist.remove_ingredient i (run_all ops (run OpBotanistInit w))).2).
Proof.
  intros Hops.
  assert (tidy (run_all ops (run OpBotanistInit w))) as Htidy.
  { apply tidy_run_all; [done|]. intros name l. cbn. by rewrite lookup_empty. }
  split; [|by apply tidy_remove_twice].
  intros name. by apply tidy_stock.
Qed.

Lemma generated_inventory_holds_instances_once_witness :
  let ops := [OpGenerateIngredient; OpGenerateIngredient; OpNewPotion HealingPotion;
              OpGenerateIngredient] in
  let w := run_all ops (run OpBotanistInit (initial [0; 0; 0; 0; 1; 0; 0; 2; 0]%nat [])) in
  let i := mkIngredient 0 Herb 1 "normal" in
  stock (botanist_inventory w) "Herb"
  = [i; mkIngredient 1 Herb 2 "normal"; mkIngredient 3 Herb 3 "normal"] ∧
  Botanist.remove_ingredient i (Botanist.remove_ingredient i w).2
  = (inr tt, (Botanist.remove_ingredient i w).2).
Proof.
  intros ops w i. split; [by vm_compute|].
  apply (generated_inventory_holds_instances_once ops i
           (initial [0; 0; 0; 0; 1; 0; 0; 2; 0]%nat [])).
  reflexivity.
Defined.

(** * Brewing again *)

Lemma next_id_run_all ops w : (next_id w ≤ next_id (run_all ops w))%nat.
Proof. apply (grows_run_all next_id_grows). intros m k w0. by unfold next_id_grows. Qed.

Lemma get_name_triple i j : triple i = triple j → get_name i = get_name j.
Proof. unfold triple, get_name. by intros [= -> _ _]. Qed.

Lemma recipe_names c :
  (λ r, get_name (mkIngredient 0 r.1.1 r.1.2 r.2)) <$> recipe c = ["Herb"; "Mushroom"; "Root"].
Proof. by destruct c. Qed.

Lemma fresh_ingredients_names n l :
  get_name <$> fresh_ingredients n l = (λ r, get_name (mkIngredient 0 r.1.1 r.1.2 r.2)) <$> l.
Proof.
  revert n. induction l as [|r l IH]; intros n; cbn [fresh_ingredients fmap list_fmap]; [done|].
  f_equal. apply IH.
Qed.

(** X8. Every [brew] returns three ingredients, one herb, one mushroom
    and one root, with the quantities and qualities of the potion's
    recipe. Brewing the same potion again, after whatever the program
    did in between, gives the same quantities and qualities, but as new
    instances: the two sets share no instance. *)
Theorem brew_builds_new_instances (p : Potion) (ops : list operation) (w : world) :
  ∃ l1 l2,
    (brew p w).1 = inr l1 ∧
    (brew p (run_all ops (brew p w).2)).1 = inr l2 ∧
    triple <$> l1 ≡ₚ recipe (potion_class p) ∧
    triple <$> l2 ≡ₚ recipe (potion_class p) ∧
    get_name <$> l1 ≡ₚ ["Herb"; "Mushroom"; "Root"] ∧
    NoDup l1 ∧
    (∀ i, i ∈ l1 → i ∉ l2).
Proof.
  pose proof (next_id_run_all ops (brew p w).2) as Hlater.
  rewrite !brew_unfold in *. cbn [fst snd] in *.
  set (w1 := run_all ops _) in *. cbn [next_id with_layout with_next_id] in Hlater.
  eexists _, _. split; [done|]. split; [done|].
  split; [by rewrite permute_Permutation, fresh_ingredients_triple|].
  split; [by rewrite permute_Permutation, fresh_ingredients_triple|].
  split.
  { rewrite permute_Permutation, fresh_ingredients_names. by rewrite recipe_names. }
  split; [rewrite permute_Permutation; apply fresh_ingredients_nodup|].
  intros i. rewrite !permute_Permutation.
  intros H1%fresh_ingredients_id H2%fresh_ingredients_id. lia.
Qed.

(** * What the allocation pass needs to return *)

Lemma for_each_returns {X} (l : list X) (body : X → M unit) w w' :
  for_each l body w = (inr tt, w') →
  ∀ x, x ∈ l → ∃ w1 w2, body x w1 = (inr tt, w2).
Proof.
  revert w. induction l as [|y l IH]; intros w; cbn [for_each].
  - by intros _ x ?%elem_of_nil.
  - intros ([] & w1 & Hy & Hrest)%bind_returns x [->|Hx]%elem_of_cons.
    + by exists w, w1.
    + by eapply IH.
Qed.

Lemma for_each_unchanged {X} (l : list X) (body : X → M unit) w :
  (∀ x, x ∈ l → body x w = (inr tt, w)) → for_each l body w = (inr tt, w).
Proof.
  induction l as [|y l IH]; intros Hbody; cbn [for_each]; [done|].
  erewrite bind_inr by (apply Hbody; left). apply IH.
  intros x Hx. apply Hbody. by right.
Qed.

Lemma call_returns v w v' w' :
  call v w = (inr v', w') →
  ∃ c, v = VClass c ∧ v' = VPotion (mkPotion (next_id w) c) ∧ w' = (new_potion c w).2.
Proof.
  destruct v as [|c|p|i]; try done. rewrite call_class. intros [= <- <-]. by exists c.
Qed.

Lemma consume_ingredient_returns u g w w' :
  Sorcerer.consume_ingredient u g w = (inr tt, w') →
  ∀ s, s ∈ succ_list g u → ∃ i, s = VIngredient i.
Proof.
  unfold Sorcerer.consume_ingredient.
  intros (l & w1 & [Hl ->]%lift_returns & Hloop)%bind_returns s Hs.
  unfold successors in Hl. destruct (decide (u ∈ nodes g)) as [Hu|Hu]; [|done].
  injection Hl as <-.
  destruct (for_each_returns _ _ _ _ Hloop s Hs) as (w1 & w2 & Hone).
  destruct s as [|c|p|i]; try done. by exists i.
Qed.

(** One round of the loop of [optimize_potions] returns only on a potion
    class that no edge points to. *)
Lemma optimize_one_returns g acc v w acc' w' :
  Sorcerer.optimize_one g acc v w = (inr acc', w') →
  ∃ c, v = VClass c ∧ v ∈ nodes g ∧ pred_list g v = [] ∧
       acc' = acc ++ [VPotion (mkPotion (next_id w) c)] ∧ w' = (new_potion c w).2.
Proof.
  unfold Sorcerer.optimize_one.
  intros (potion & w1 & (c & -> & -> & ->)%call_returns & Hrest)%bind_returns.
  apply bind_returns in Hrest as (preds & w2 & [Hpreds ->]%lift_returns & Hrest).
  unfold predecessors in Hpreds. destruct (decide (VClass c ∈ nodes g)) as [Hnode|Hnode]; [|done].
  injection Hpreds as <-.
  apply bind_returns in Hrest as ([] & w3 & Hloop & Hret).
  destruct (pred_list g (VClass c)) as [|u preds] eqn:Hpreds.
  - cbn in Hloop. injection Hloop as <-. injection Hret as <- <-. by exists c.
  - exfalso.
    destruct (for_each_returns _ _ _ _ Hloop u ltac:(left)) as (wa & wb & Hu).
    assert (VClass c ∈ succ_list g u) as Hsucc.
    { apply elem_of_succ_list, elem_of_pred_list. rewrite Hpreds. left. }
    by destruct (consume_ingredient_returns _ _ _ _ Hu _ Hsucc).
Qed.

Lemma optimize_loop_returns g l acc w acc' w' :
  for_fold l acc (Sorcerer.optimize_one g) w = (inr acc', w') →
  ∃ cs, l = VClass <$> cs ∧ (∀ v, v ∈ l → v ∈ nodes g ∧ pred_list g v = []).
Proof.
  revert acc w. induction l as [|v l IH]; intros acc w; cbn [for_fold].
  - intros _. exists []. split; [done|]. by intros v ?%elem_of_nil.
  - intros (acc1 & w1 & (c & -> & Hnode & Hpred & _)%optimize_one_returns
              & (cs & -> & Hcs)%IH)%bind_returns.
    exists (c :: cs). split; [done|].
    intros v [->|Hv]%elem_of_cons; [done|]. by apply Hcs.
Qed.



(** ** The sort of a graph *)

Lemma visit_children_keeps_pending cs st st' v :
  visit_children st cs = inr st' →
  is_Some (st.1 !! v) ∨ v ∈ st.2 → is_Some (st'.1 !! v) ∨ v ∈ st'.2.
Proof.
  revert st. induction cs as [|c cs IH]; intros st; cbn [visit_children].
  - by intros [= <-].
  - destruct (visit_child st c) as [e|st1] eqn:Hc; [done|]. intros Hrest Hv.
    apply (IH _ Hrest). unfold visit_child in Hc.
    destruct (st.1 !! c) as [d|] eqn:Hd; [|done].
    destruct (decide (Nat.pred d = 0%nat)) as [Hd0|Hd0]; injection Hc as <-; cbn [fst snd].
    + destruct (decide (v = c)) as [->|Hne].
      * right. apply elem_of_app. right. left.
      * destruct Hv as [Hv|Hv]; [left; by rewrite lookup_delete_ne|right].
        apply elem_of_app. by left.
    + destruct Hv as [Hv|Hv]; [left|by right].
      destruct (decide (v = c)) as [->|Hne]; [by rewrite lookup_insert_eq|].
      by rewrite lookup_insert_ne.
Qed.

Lemma visit_generation_keeps_pending g ns st st' v :
  visit_generation g st ns = inr st' →
  is_Some (st.1 !! v) ∨ v ∈ st.2 → is_Some (st'.1 !! v) ∨ v ∈ st'.2.
Proof.
  revert st. induction ns as [|n ns IH]; intros st; cbn [visit_generation].
  - by intros [= <-].
  - destruct (decide (n ∈ nodes g)) as [Hn|Hn]; [|done].
    destruct (visit_children st (succ_list g n)) as [e|st1] eqn:Hc; [done|].
    intros Hrest Hv. apply (IH _ Hrest). by eapply visit_children_keeps_pending.
Qed.

Lemma generations_cover fuel g m zero sorted l v :
  generations fuel g m zero sorted = Some (inr l) →
  v ∈ sorted ∨ v ∈ zero ∨ is_Some (m !! v) → v ∈ l.
Proof.
  revert m zero sorted. induction fuel as [|fuel IH]; intros m zero sorted; [done|].
  cbn [generations]. destruct zero as [|z zero].
  - destruct (decide (m = ∅)) as [->|Hm]; [|done]. intros [= <-].
    intros [Hv|[Hv%elem_of_nil|Hv]]; [done|done|].
    rewrite lookup_empty in Hv. by destruct Hv.
  - destruct (visit_generation g (m, []) (z :: zero)) as [e|[m' zero']] eqn:Hgen; [done|].
    intros Hrest Hv. apply (IH _ _ _ Hrest).
    destruct Hv as [Hv|[Hv|Hv]].
    + left. apply elem_of_app. by left.
    + left. apply elem_of_app. by right.
    + right. destruct (visit_generation_keeps_pending _ _ _ _ v Hgen) as [H|H]; cbn; auto.
Qed.

(** The sort leaves no node out. *)
Lemma topological_sort_covers g l v : topological_sort g = inr l → v ∈ nodes g → v ∈ l.
Proof.
  unfold topological_sort.
  destruct (generations _ g (indegree_map g) (zero_indegree g) []) as [[e|l']|] eqn:Hgen; try done.
  intros [= ->] Hv. apply (generations_cover _ _ _ _ _ _ v Hgen). right.
  destruct (decide (in_degree g v = 0%nat)) as [Hzero|Hpos].
  - left. apply list_elem_of_filter. by split.
  - right. unfold indegree_map.
    destruct (list_to_map _ !! v) as [d|] eqn:Hd; [done|]. exfalso.
    apply not_elem_of_list_to_map_2 in Hd. apply Hd.
    rewrite <- list_fmap_compose. apply list_elem_of_fmap.
    exists v. split; [done|]. apply list_elem_of_filter. by split.
Qed.

Lemma visit_children_empty cs zero st' :
  visit_children (∅, zero) cs = inr st' → cs = [].
Proof. destruct cs as [|c cs]; [done|]. cbn. unfold visit_child. cbn. by rewrite lookup_empty. Qed.

Lemma visit_generation_empty g ns zero st' :
  visit_generation g (∅, zero) ns = inr st' →
  st' = (∅, zero) ∧ ∀ v, v ∈ ns → succ_list g v = [].
Proof.
  revert st'. induction ns as [|n ns IH]; intros st'; cbn [visit_generation].
  - intros [= <-]. split; [done|]. by intros v ?%elem_of_nil.
  - destruct (decide (n ∈ nodes g)) as [Hn|Hn]; [|done].
    destruct (visit_children (∅, zero) (succ_list g n)) as [e|st1] eqn:Hc; [done|].
    pose proof (visit_children_empty _ _ _ Hc) as Hnone. rewrite Hnone in Hc.
    injection Hc as <-.
    intros [-> Hns]%IH. split; [done|].
    intros v [->|Hv]%elem_of_cons; [done|]. by apply Hns.
Qed.

(** The sort of a graph in which no edge points to a node: it returns
    only if no edge leaves a node either, and then with the nodes in
    the order they were added. *)
Lemma topological_sort_sources g l :
  (∀ v, v ∈ nodes g → pred_list g v = []) →
  topological_sort g = inr l →
  l = nodes g ∧ ∀ v, v ∈ nodes g → succ_list g v = [].
Proof.
  intros Hpred. unfold topological_sort.
  assert (indegree_map g = ∅) as ->.
  { unfold indegree_map. rewrite filter_none; [done|].
    intros v Hv. unfold in_degree. rewrite (Hpred v Hv). cbn. by intros []. }
  assert (zero_indegree g = nodes g) as ->.
  { unfold zero_indegree. apply filter_all. intros v Hv. unfold in_degree.
    by rewrite (Hpred v Hv). }
  rewrite map_size_empty. cbn [Nat.add generations].
  destruct (nodes g) as [|n ns] eqn:Hnodes.
  - intros [= <-]. split; [done|]. by intros v ?%elem_of_nil.
  - destruct (visit_generation g (∅, []) (n :: ns)) as [e|[m' zero']] eqn:Hgen; [done|].
    apply visit_generation_empty in Hgen as [[= -> ->] Hsucc].
    rewrite decide_True by done. intros [= <-]. done.
Qed.


(** X9. [optimize_potions] returns only on a graph all of whose nodes
    are potion classes and which has no edge from or to any of them:
    every node of the sorted list is called, and the successors of a
    predecessor of a node include that node, which has no cost. *)
Theorem optimize_potions_returns_only_without_edges
    (g : DiGraph) (w : world) (l : list value) (w' : world) :
  Sorcerer.optimize_potions g w = (inr l, w') →
  ∃ cs, nodes g = VClass <$> cs ∧ ∀ v, v ∈ nodes g → isolated g v.
Proof.
  unfold Sorcerer.optimize_potions.
  intros (sorted & w1 & [Hsort ->]%lift_returns & Hrest)%bind_returns.
  apply bind_returns in Hrest as ([] & w2 & _ & Hloop).
  apply optimize_loop_returns in Hloop as (cs & -> & Hcs).
  assert (∀ v, v ∈ nodes g → pred_list g v = []) as Hpred.
  { intros v Hv. apply Hcs. by eapply topological_sort_covers. }
  destruct (topological_sort_sources g _ Hpred Hsort) as [Hnodes Hsucc].
  exists cs. split; [done|]. intros v Hv. split; [by apply Hpred|by apply Hsucc].
Qed.

Lemma optimize_potions_returns_only_without_edges_witness :
  let g := mkDiGraph [VClass StrengthPotion; VClass HealingPotion] [] in
  ∃ cs, nodes g = VClass <$> cs ∧ ∀ v, v ∈ nodes g → isolated g v.
Proof.
  intros g.
  apply (optimize_potions_returns_only_without_edges g (initial [] [])
           [VPotion (mkPotion 0 StrengthPotion); VPotion (mkPotion 1 HealingPotion)]
           (Sorcerer.optimize_potions g (initial [] [])).2).
  reflexivity.
Defined.



(** * The budget the pass starts from *)

Lemma get_cost_positive i :
  0 < quantity i → quality i ∈ quality_options → ∃ c, get_cost i = inr c ∧ 0 < c.
Proof.
  intros Hq Hql. unfold get_cost, quality_options in *.
  rewrite !elem_of_cons, elem_of_nil in Hql. destruct Hql as [->|[->|[->|[]]]].
  - rewrite quality_costs_normal. eexists. split; [done|]. lia.
  - rewrite quality_costs_premium. eexists. split; [done|]. lia.
  - rewrite quality_costs_legendary. eexists. split; [done|]. lia.
Qed.

Lemma reset_budget_table q : q ∈ quality_options → Sorcerer.reset_budget !! q = Some 0.
Proof.
  unfold quality_options. rewrite !elem_of_cons, elem_of_nil.
  by intros [->|[->|[->|[]]]].
Qed.

(** X11. With the budget the pass starts from, 0 for every quality,
    [consume_ingredient] takes nothing: each successor that is an
    ingredient of a quality of the table with a positive quantity costs
    more than the budget, and the store stays as it was. *)
Theorem consume_ingredient_takes_nothing (v : value) (g : DiGraph) (w : world) :
  herbs_used w = Sorcerer.reset_budget →
  v ∈ nodes g →
  (∀ s, s ∈ succ_list g v →
        ∃ i, s = VIngredient i ∧ 0 < quantity i ∧ quality i ∈ quality_options) →
  Sorcerer.consume_ingredient v g w = (inr tt, w).
Proof.
  intros Hbudget Hnode Hsucc. unfold Sorcerer.consume_ingredient, successors.
  rewrite decide_True by done. cbn [lift]. erewrite bind_inr by reflexivity.
  apply for_each_unchanged. intros s (i & -> & Hq & Hql)%Hsucc.
  destruct (get_cost_positive i Hq Hql) as (c & Hc & Hpos).
  rewrite consume_one_ingredient, Hc, Hbudget, (reset_budget_table _ Hql).
  destruct (decide (c ≤ 0)) as [Hle|Hgt]; [lia|done].
Qed.

Lemma consume_ingredient_takes_nothing_witness :
  let w := with_sorcerer_inventory
             {[ "Herb" := [mkIngredient 0 Herb 3 "normal"] ]}
             (with_herbs_used Sorcerer.reset_budget (initial [] [])) in
  Sorcerer.consume_ingredient (VClass HealingPotion) intended_graph w = (inr tt, w).
Proof.
  intros w.
  apply (consume_ingredient_takes_nothing (VClass HealingPotion) intended_graph w).
  - reflexivity.
  - vm_compute. left.
  - intros s Hs.
    assert (succ_list intended_graph (VClass HealingPotion)
            = VIngredient <$> fresh_ingredients 0 (recipe HealingPotion)) as Heq
      by (by vm_compute).
    rewrite Heq in Hs. apply list_elem_of_fmap in Hs as (i & -> & Hi).
    exists i. split; [done|]. cbn in Hi.
    rewrite !elem_of_cons, elem_of_nil in Hi.
    destruct Hi as [->|[->|[->|[]]]]; (split; [reflexivity|left]).
Defined.

(** An ingredient of quantity 0 costs nothing, so the budget covers it,
    and the removal is tried; here the sorcerer holds nothing. *)
Example consume_ingredient_free_ingredient :
  let g := mkDiGraph [VClass HealingPotion; VIngredient (mkIngredient 0 Herb 0 "normal")]
             [(VClass HealingPotion, VIngredient (mkIngredient 0 Herb 0 "normal"))] in
  (Sorcerer.consume_ingredient (VClass HealingPotion) g
     (with_herbs_used Sorcerer.reset_budget (initial [] []))).1 = inl KeyError.
Proof. by vm_compute. Qed.

(** * Generating a potion from a graph without classes *)

(** X12. On a graph that holds no potion class [generate_potion]
    raises: [IndexError] when the graph has no node at all, [TypeError]
    otherwise, as the node drawn cannot be called. No potion is made
    and nothing is printed; the store differs only by the draw. *)
Theorem generate_potion_needs_a_class (g : DiGraph) (w : world) :
  (∀ c, VClass c ∉ nodes g) →
  Sorcerer.generate_potion g w
  = match nodes g with
    | [] => (inl IndexError, w)
    | _ => (inl TypeError, with_rng (tail (rng w)) w)
    end.
Proof.
  intros Hclass. unfold Sorcerer.generate_potion.
  destruct (nodes g) as [|n ns] eqn:Hnodes; [done|].
  erewrite bind_inr by (by apply (choice_nonempty _ VNone)).
  destruct ((n :: ns) !! (tape w 0 mod length (n :: ns))%nat) as [v|] eqn:Hv; cbn [default].
  - apply list_elem_of_lookup_2 in Hv. destruct v as [|c|p|i]; try done.
    by destruct (Hclass c).
  - done.
Qed.

Lemma generate_potion_needs_a_class_witness :
  Sorcerer.generate_potion three_potions_graph three_potions_after
  = (inl TypeError, with_rng (tail (rng three_potions_after)) three_potions_after).
Proof.
  apply (generate_potion_needs_a_class three_potions_graph three_potions_after).
  intros c Hc. vm_compute in Hc.
  repeat (apply elem_of_cons in Hc as [Hc|Hc]; [done|]). by apply elem_of_nil in Hc.
Defined.

(** * A potion graph from a list that holds a class *)

Lemma add_nodes_from_total ns g : VNone ∉ ns → ∃ g', add_nodes_from ns g = inr g'.
Proof.
  revert g. induction ns as [|n ns IH]; intros g Hns; cbn [add_nodes_from]; [by exists g|].
  rewrite decide_False by (intros ->; apply Hns; left).
  apply IH. intros H. apply Hns. by right.
Qed.

Lemma add_edges_total (p : Potion) (l : list Ingredient) g w :
  ∃ g', for_fold l g (λ g i, lift (add_edge (VPotion p) (VIngredient i) g)) w = (inr g', w).
Proof.
  revert g. induction l as [|i l IH]; intros g; cbn [for_fold]; [by exists g|].
  unfold add_edge at 1. rewrite decide_False by (by intros [|]). cbn [lift].
  erewrite bind_inr by reflexivity. apply IH.
Qed.

Lemma brew_into_potion g p w :
  ∃ g', Sorcerer.brew_into g (VPotion p) w = (inr g', run (OpBrew p) w).
Proof.
  unfold Sorcerer.brew_into. cbn [call_brew run].
  destruct (brew_total p w) as (l & w' & Hbrew). rewrite Hbrew. cbn [snd].
  erewrite bind_inr by exact Hbrew. apply add_edges_total.
Qed.

Lemma brew_into_loop_potions ps g w :
  ∃ g', for_fold (VPotion <$> ps) g Sorcerer.brew_into w = (inr g', run_all (OpBrew <$> ps) w).
Proof.
  revert g w. induction ps as [|p ps IH]; intros g w; [by exists g|].
  cbn [fmap list_fmap for_fold].
  destruct (brew_into_potion g p w) as [g1 Hp]. erewrite bind_inr by exact Hp.
  apply IH.
Qed.

Lemma for_fold_app {X A} (l1 l2 : list X) (acc : A) body w :
  for_fold (l1 ++ l2) acc body w
  = bind (for_fold l1 acc body) (λ acc', for_fold l2 acc' body) w.
Proof.
  revert acc w. induction l1 as [|x l1 IH]; intros acc w; cbn [app for_fold]; [done|].
  unfold bind. destruct (body acc x w) as [[e|acc1] w1]; [done|]. apply IH.
Qed.

(** X13. [generate_graph] brews the potions of its list one after the
    other, and a potion class in the list, as in the list the program
    passes, cannot be brewed: the call raises [TypeError]. The potion
    instances listed before the class have been brewed by then, and
    stay brewed. *)
Theorem generate_graph_raises_on_class
    (ps : list Potion) (c : PotionClass) (rest : list value) (w : world) :
  VNone ∉ rest →
  Sorcerer.generate_graph ((VPotion <$> ps) ++ VClass c :: rest) w
  = (inl TypeError, run_all (OpBrew <$> ps) w).
Proof.
  intros Hrest. unfold Sorcerer.generate_graph.
  destruct (add_nodes_from_total ((VPotion <$> ps) ++ VClass c :: rest) empty_graph)
    as [g0 Hg0].
  { intros [(p & [=] & _)%list_elem_of_fmap|[[=]|H]%elem_of_cons]%elem_of_app. done. }
  erewrite bind_inr by (rewrite Hg0; reflexivity).
  rewrite for_fold_app.
  destruct (brew_into_loop_potions ps g0 w) as [g1 Hloop].
  erewrite bind_inr by exact Hloop. reflexivity.
Qed.

Lemma generate_graph_raises_on_class_witness :
  let p := mkPotion 0 HealingPotion in
  let w := run (OpNewPotion HealingPotion) (initial [7]%nat []) in
  Sorcerer.generate_graph [VPotion p; VClass InvisibilityPotion; VClass StrengthPotion] w
  = (inl TypeError, run (OpBrew p) w) ∧
  extra_powers (run (OpBrew p) w) !! 0%nat = Some 7.
Proof.
  intros p w. split; [|reflexivity].
  apply (generate_graph_raises_on_class [p] InvisibilityPotion [VClass StrengthPotion] w).
  intros [[=]|H%elem_of_nil]%elem_of_cons. done.
Defined.

(** * How many instances the botanist holds *)

Lemma held_empty : held ∅ = 0%nat.
Proof. unfold held. by rewrite map_to_list_empty. Qed.

Lemma held_split inv name :
  held inv = (length (stock inv name) + held (delete name inv))%nat.
Proof.
  unfold held, stock. destruct (inv !! name) as [l|] eqn:Hl; cbn [default].
  - rewrite <- (map_to_list_delete inv name l Hl). cbn. by rewrite length_app.
  - by rewrite delete_id.
Qed.

Lemma held_insert inv name l :
  held (<[name := l]> inv) = (length l + held (delete name inv))%nat.
Proof.
  rewrite (held_split (<[name := l]> inv) name), stock_insert. by rewrite delete_insert_eq.
Qed.

Lemma held_run op w : held (botanist_inventory (run op w)) = held_after op w.
Proof.
  destruct (is_botanist_op op) eqn:Hop.
  - destruct op; cbn [is_botanist_op] in Hop; try done; cbn [run held_after].
    + rewrite add_ingredient_unfold.
      cbn [snd botanist_inventory with_botanist_inventory with_botanist_keys].
      rewrite held_insert, (held_split (botanist_inventory w) (get_name i)), length_app.
      cbn. lia.
    + destruct (decide (i ∈ stock (botanist_inventory w) (get_name i))) as [Hin|Hout].
      * destruct (remove_ingredient_present i w Hin) as (l' & Hl' & ->).
        cbn [snd botanist_inventory with_botanist_inventory].
        rewrite held_insert, (held_split (botanist_inventory w) (get_name i)).
        apply list_remove_length in Hl'. lia.
      * by rewrite remove_ingredient_absent.
    + rewrite generate_ingredient_unfold.
      cbn [snd botanist_inventory with_botanist_inventory with_botanist_keys with_stdout
             with_next_id with_rng].
      set (i := drawn_ingredient _ _ _ _).
      rewrite held_insert, (held_split (botanist_inventory w) (get_name i)), length_app.
      cbn. lia.
    + by rewrite (grows_show_inventory same_botanist_inventory).
  - rewrite run_other_botanist_inventory by done. by destruct op.
Qed.

Lemma held_report inv :
  held inv = sum_list ((λ entry : string * list Ingredient, length entry.2) <$> map_to_list inv).
Proof.
  unfold held. induction (map_to_list inv) as [|[name l] rest IH]; [done|].
  cbn. rewrite length_app. by rewrite IH.
Qed.

(** X14. The number of instances the botanist holds, which is what the
    numbers of the report add up to: a new botanist holds none, adding
    or generating an ingredient raises the number by one, removing an
    instance that is held lowers it by one, and nothing else the
    program does changes it. So a botanist that generated [n]
    ingredients, as the program does ten times, holds [n] instances. *)
Theorem botanist_holds_what_was_added (op : operation) (n : nat) (w : world) :
  held (botanist_inventory (run op w)) = held_after op w ∧
  held (botanist_inventory w)
  = sum_list ((λ entry : string * list Ingredient, length entry.2)
                <$> map_to_list (botanist_inventory w)) ∧
  held (botanist_inventory
          (run_all (replicate n OpGenerateIngredient) (run OpBotanistInit w))) = n.
Proof.
  split; [apply held_run|]. split; [apply held_report|].
  induction n as [|n IH]; [apply held_empty|].
  rewrite replicate_S_end, run_all_app. cbn [run_all foldl].
  rewrite held_run. cbn [held_after]. by rewrite IH.
Qed.
